(** * AlphaStream: the multi-core round-robin message scheduler of [src/App.tsx]

    A shallow embedding of the simulation logic of the [AlphaStream]
    component: the React state cells and the two simulation refs, the
    callbacks [initializeSystem], [resetSystem] and [addMessage], the body of
    the scheduler interval, and the guards of the two interval effects.

    Conventions.
    - JavaScript numbers that hold times, latencies and counters are integers
      here ([Z]), which is the arithmetic of the source as long as the values
      are safe integers; [updateMetricsDouble] computes the metrics in
      doubles.  Array positions and core numbers are [nat].
    - [Date.now()] and the strings drawn from [Math.random()] are inputs of
      the callback that reads them.
    - The [queues] object is a finite map keyed by [ClientId]; arrays are
      lists, read with [!!] and written with [<[i:=x]>]. *)

From stdpp Require Import base numbers list sorting strings countable gmap fin_maps.
From Stdlib Require SpecFloat.

Local Open Scope Z_scope.

(** ** Types *)

(** [type ClientId = "APEX" | "NOVA" | "ZEUS" | "FLUX"] *)
Inductive ClientId := APEX | NOVA | ZEUS | FLUX.

(** The [type] field of a message: ["BUY" | "SELL" | "PING"]. *)
Inductive MsgType := BUY | SELL | PING.

#[global] Instance ClientId_eq_dec : EqDecision ClientId.
Proof. solve_decision. Defined.

#[global] Instance MsgType_eq_dec : EqDecision MsgType.
Proof. solve_decision. Defined.

Definition ClientId_code (c : ClientId) : nat :=
  match c with APEX => 0 | NOVA => 1 | ZEUS => 2 | FLUX => 3 end%nat.

Definition ClientId_decode (n : nat) : option ClientId :=
  match n with
  | 0 => Some APEX | 1 => Some NOVA | 2 => Some ZEUS | 3 => Some FLUX
  | _ => None
  end%nat.

#[global] Instance ClientId_countable : Countable ClientId.
Proof.
  refine (inj_countable ClientId_code ClientId_decode _).
  by intros [].
Defined.

(** [interface Message]; the fields carry the prefix [m_]. *)
Record Message := mkMessage {
  m_id : string;
  m_clientId : ClientId;
  m_content : string;
  m_timestamp : Z;
  m_type : MsgType
}.

(** [interface ProcessedLog extends Message]: the record built by
    [{ ...msg, processedAt, latencyMs, coreId }].  The spread copy of the
    message is the field [p_msg]. *)
Record ProcessedLog := mkProcessedLog {
  p_msg : Message;
  processedAt : Z;
  latencyMs : Z;
  p_coreId : nat
}.

(** [interface GanttBlock]; the fields shared with other interfaces carry the
    prefix [g_]. *)
Record GanttBlock := mkGanttBlock {
  g_id : string;
  g_clientId : ClientId;
  startTime : Z;
  endTime : Z;
  g_coreId : nat
}.

(** An element of [coreStates]: [{ clientIndex: number }]. *)
Record CoreState := mkCoreState { clientIndex : nat }.

(** The [metrics] state cell. *)
Record Metrics := mkMetrics {
  totalProcessed : Z;
  avgLatency : Z;
  activeNodes : Z
}.

#[global] Instance Message_eq_dec : EqDecision Message.
Proof. solve_decision. Defined.

#[global] Instance ProcessedLog_eq_dec : EqDecision ProcessedLog.
Proof. solve_decision. Defined.

#[global] Instance CoreState_eq_dec : EqDecision CoreState.
Proof. solve_decision. Defined.

(** [Record<ClientId, Message[]>] *)
Abbreviation Queues := (gmap ClientId (list Message)).

(** ** Constants *)

(** [const CLIENTS: ClientId[] = ["APEX", "NOVA", "ZEUS", "FLUX"]] *)
Definition CLIENTS : list ClientId := [APEX; NOVA; ZEUS; FLUX].

Definition INJECTION_RATE_MS : Z := 2000.

(** The literal [{ APEX: [], NOVA: [], ZEUS: [], FLUX: [] }]. *)
Definition emptyQueues : Queues :=
  <[FLUX := []]> (<[ZEUS := []]> (<[NOVA := []]> (<[APEX := []]> ∅))).

(** The literal [{ totalProcessed: 0, avgLatency: 0, activeNodes: 4 }]. *)
Definition zeroMetrics : Metrics :=
  {| totalProcessed := 0; avgLatency := 0; activeNodes := 4 |}.

(** ** Component state

    The state cells of [AlphaStream] that the simulation reads or writes,
    followed by the two refs.  [viewMode], [tutorialStep] and
    [ganttContainerRef] only drive the rendering and are left out. *)
Record State := mkState {
  configMode : bool;
  cpuCount : nat;
  queues : Queues;
  logs : list ProcessedLog;
  ganttHistory : list GanttBlock;
  coreStates : list CoreState;
  isProcessing : bool;
  autoInject : bool;
  tickRate : Z;
  metrics : Metrics;
  queuesRef : Queues;
  coreStatesRef : list CoreState
}.

(** The values passed to [useState] and [useRef] on the first render. *)
Definition initialState : State :=
  {| configMode := true;
     cpuCount := 1;
     queues := emptyQueues;
     logs := [];
     ganttHistory := [];
     coreStates := [ {| clientIndex := 0 |} ];
     isProcessing := false;
     autoInject := false;
     tickRate := 1200;
     metrics := zeroMetrics;
     queuesRef := emptyQueues;
     coreStatesRef := [ {| clientIndex := 0 |} ] |}.

(** The two effects
    [useEffect(() => { queuesRef.current = queues; }, [queues])] and
    [useEffect(() => { coreStatesRef.current = coreStates; }, [coreStates])]
    that run after a render. *)
Definition syncRefs (s : State) : State :=
  {| configMode := configMode s;
     cpuCount := cpuCount s;
     queues := queues s;
     logs := logs s;
     ganttHistory := ganttHistory s;
     coreStates := coreStates s;
     isProcessing := isProcessing s;
     autoInject := autoInject s;
     tickRate := tickRate s;
     metrics := metrics s;
     queuesRef := queues s;
     coreStatesRef := coreStates s |}.

(** ** Completions

    A callback either completes normally or throws.  The only operation of
    the simulation that can throw is the spread [...prev[clientId]] of
    [addMessage], when the key is missing from the object. *)
Inductive JsError := TypeError.

Inductive Completion (A : Type) :=
| Normal (a : A)
| Throw (e : JsError).
Arguments Normal {A} a.
Arguments Throw {A} e.

Definition bindC {A B} (c : Completion A) (k : A → Completion B) : Completion B :=
  match c with
  | Normal a => k a
  | Throw e => Throw e
  end.

Notation "x ←c c ; k" := (bindC c (fun x => k))
  (at level 100, c at next level, right associativity).

(** ** [initializeSystem] and [resetSystem] *)

(** [Array.from({ length: cores }, (_, i) => ({ clientIndex: i % CLIENTS.length }))] *)
Definition initialStates (cores : nat) : list CoreState :=
  (fun i => {| clientIndex := i mod length CLIENTS |}) <$> seq 0 cores.

Definition initializeSystem (cores : nat) (s : State) : State :=
  {| configMode := false;
     cpuCount := cores;
     queues := queues s;
     logs := logs s;
     ganttHistory := ganttHistory s;
     coreStates := initialStates cores;
     isProcessing := isProcessing s;
     autoInject := autoInject s;
     tickRate := tickRate s;
     metrics := metrics s;
     queuesRef := queuesRef s;
     coreStatesRef := initialStates cores |}.

Definition resetSystem (s : State) : State :=
  {| configMode := true;
     cpuCount := cpuCount s;
     queues := emptyQueues;
     logs := [];
     ganttHistory := [];
     coreStates := coreStates s;
     isProcessing := false;
     autoInject := false;
     tickRate := tickRate s;
     metrics := zeroMetrics;
     queuesRef := queuesRef s;
     coreStatesRef := coreStatesRef s |}.

(** ** Message injection *)

(** The text of a message type inside the template literal. *)
Definition MsgType_text (t : MsgType) : string :=
  match t with BUY => "BUY" | SELL => "SELL" | PING => "PING" end.

(** [addMessage(clientId)].  [newId] is the result of [generateId()], [type]
    the element of [types] that was drawn, [price] the string produced by
    [toFixed(2)] and [now] the value of [Date.now()].  The updater passed to
    [setQueues] copies [prev] and replaces the entry of [clientId] by the old
    array followed by the new message. *)
Definition addMessage (clientId : ClientId) (newId : string) (type : MsgType)
    (price : string) (now : Z) (s : State) : Completion State :=
  let newMessage :=
    {| m_id := newId;
       m_clientId := clientId;
       m_content := MsgType_text type +:+ " @ " +:+ price;
       m_timestamp := now;
       m_type := type |} in
  match queues s !! clientId with
  | None => Throw TypeError
  | Some old =>
      Normal
        {| configMode := configMode s;
           cpuCount := cpuCount s;
           queues := <[clientId := old ++ [newMessage]]> (queues s);
           logs := logs s;
           ganttHistory := ganttHistory s;
           coreStates := coreStates s;
           isProcessing := isProcessing s;
           autoInject := autoInject s;
           tickRate := tickRate s;
           metrics := metrics s;
           queuesRef := queuesRef s;
           coreStatesRef := coreStatesRef s |}
  end.

(** ** The scheduler interval *)

(** The four locals of the interval callback. *)
Record Snapshot := mkSnapshot {
  currentQueues : Queues;
  currentCoreStates : list CoreState;
  processedItems : list ProcessedLog;
  ganttItems : list GanttBlock
}.

(** One iteration of [for (let coreId = 0; coreId < cpuCount; coreId++)].
    [ids coreId] is the string [generateId()] returns in this iteration. *)
Definition coreStep (now rate : Z) (ids : nat → string) (L : Snapshot)
    (coreId : nat) : Snapshot :=
  match currentCoreStates L !! coreId with
  | None => L (* if (!state) continue; *)
  | Some state =>
      let served :=
        match CLIENTS !! clientIndex state with
        | None => L
        | Some clientId =>
            match currentQueues L !! clientId with
            | Some (msg :: remaining) =>
                let latency := now - m_timestamp msg in
                {| currentQueues := <[clientId := remaining]> (currentQueues L);
                   currentCoreStates := currentCoreStates L;
                   processedItems :=
                     processedItems L ++
                       [ {| p_msg := msg;
                            processedAt := now;
                            latencyMs := latency;
                            p_coreId := coreId |} ];
                   ganttItems :=
                     ganttItems L ++
                       [ {| g_id := ids coreId;
                            g_clientId := clientId;
                            startTime := now - rate;
                            endTime := now;
                            g_coreId := coreId |} ] |}
            | _ => L
            end
        end in
      (* Move Round Robin Pointer for this core *)
      {| currentQueues := currentQueues served;
         currentCoreStates :=
           <[coreId := {| clientIndex :=
                            (clientIndex state + 1) mod length CLIENTS |}]>
             (currentCoreStates served);
         processedItems := processedItems served;
         ganttItems := ganttItems served |}
  end.

(** Steps 1 and 2 of the callback: the snapshot of the refs and the loop. *)
Definition snapshot (s : State) : Snapshot :=
  {| currentQueues := queuesRef s;
     currentCoreStates := coreStatesRef s;
     processedItems := [];
     ganttItems := [] |}.

Definition coreLoop (now rate : Z) (ids : nat → string) (count : nat)
    (L : Snapshot) : Snapshot :=
  foldl (coreStep now rate ids) L (seq 0 count).

Definition tickLoop (now : Z) (ids : nat → string) (s : State) : Snapshot :=
  coreLoop now (tickRate s) ids (cpuCount s) (snapshot s).

(** [Array.prototype.slice(-n)]: the last [n] elements. *)
Definition sliceLast {A} (n : nat) (l : list A) : list A :=
  drop (length l - n) l.

(** The updater passed to [setMetrics]. [Math.floor] of the quotient is the
    floor division of [Z]; the updater only runs with [newTotal > 0].  The
    source computes in doubles: the two agree while the numbers involved are
    safe integers ([exactBatch]), and [updateMetricsDouble] is the updater in
    doubles. *)
Definition updateMetrics (items : list ProcessedLog) (prev : Metrics) : Metrics :=
  let newTotal := totalProcessed prev + Z.of_nat (length items) in
  let batchLatency := foldl (fun sum item => sum + latencyMs item) 0 items in
  let newAvg := (avgLatency prev * totalProcessed prev + batchLatency) `div` newTotal in
  {| totalProcessed := newTotal;
     avgLatency := newAvg;
     activeNodes := activeNodes prev |}.

(** The body of the [setInterval] callback of the processor effect. *)
Definition tick (now : Z) (ids : nat → string) (s : State) : State :=
  let L := tickLoop now ids s in
  let nonEmpty := bool_decide (0 < length (processedItems L))%nat in
  {| configMode := configMode s;
     cpuCount := cpuCount s;
     queues := currentQueues L;
     logs := if nonEmpty then take 50 (processedItems L ++ logs s) else logs s;
     ganttHistory :=
       if nonEmpty then sliceLast 100 (ganttHistory s ++ ganttItems L)
       else ganttHistory s;
     coreStates := currentCoreStates L;
     isProcessing := isProcessing s;
     autoInject := autoInject s;
     tickRate := tickRate s;
     metrics :=
       if nonEmpty then updateMetrics (processedItems L) (metrics s)
       else metrics s;
     queuesRef := currentQueues L;
     coreStatesRef := currentCoreStates L |}.

(** ** Events of the component

    What can happen to a mounted component: clicks on the five controls that
    touch the simulation state, and firings of the two intervals. *)
Inductive Event :=
| SelectCores (cores : nat)
    (* one of the buttons [1, 2, 3, 4] of the configuration overlay *)
| PowerButton                       (* [onClick={resetSystem}] *)
| ToggleAutoInject                  (* [setAutoInject(!autoInject)] *)
| ToggleProcessing                  (* [setIsProcessing(!isProcessing)] *)
| SlideQuantum (ms : Z)             (* [setTickRate(Number(e.target.value))] *)
| InjectionTimer (clientId : ClientId) (newId : string) (type : MsgType)
    (price : string) (now : Z)
| SchedulerTimer (now : Z) (ids : nat → string).

Definition setAutoInject (b : bool) (s : State) : State :=
  {| configMode := configMode s;
     cpuCount := cpuCount s;
     queues := queues s;
     logs := logs s;
     ganttHistory := ganttHistory s;
     coreStates := coreStates s;
     isProcessing := isProcessing s;
     autoInject := b;
     tickRate := tickRate s;
     metrics := metrics s;
     queuesRef := queuesRef s;
     coreStatesRef := coreStatesRef s |}.

Definition setIsProcessing (b : bool) (s : State) : State :=
  {| configMode := configMode s;
     cpuCount := cpuCount s;
     queues := queues s;
     logs := logs s;
     ganttHistory := ganttHistory s;
     coreStates := coreStates s;
     isProcessing := b;
     autoInject := autoInject s;
     tickRate := tickRate s;
     metrics := metrics s;
     queuesRef := queuesRef s;
     coreStatesRef := coreStatesRef s |}.

Definition setTickRate (ms : Z) (s : State) : State :=
  {| configMode := configMode s;
     cpuCount := cpuCount s;
     queues := queues s;
     logs := logs s;
     ganttHistory := ganttHistory s;
     coreStates := coreStates s;
     isProcessing := isProcessing s;
     autoInject := autoInject s;
     tickRate := ms;
     metrics := metrics s;
     queuesRef := queuesRef s;
     coreStatesRef := coreStatesRef s |}.

(** The guard of the injection effect: [if (autoInject && !configMode)]. *)
Definition injectorRunning (s : State) : bool :=
  autoInject s && negb (configMode s).

(** The guard of the processor effect: [if (isProcessing && !configMode)]. *)
Definition schedulerRunning (s : State) : bool :=
  isProcessing s && negb (configMode s).

(** The callback an event runs.  The overlay with the core buttons is only
    rendered in [configMode]; an interval whose effect guard is false has not
    been set up, so its period elapsing runs no code. *)
Definition handle (ev : Event) (s : State) : Completion State :=
  match ev with
  | SelectCores cores =>
      if configMode s && bool_decide (cores ∈ [1; 2; 3; 4]%nat)
      then Normal (initializeSystem cores s)
      else Normal s
  | PowerButton => Normal (resetSystem s)
  | ToggleAutoInject => Normal (setAutoInject (negb (autoInject s)) s)
  | ToggleProcessing => Normal (setIsProcessing (negb (isProcessing s)) s)
  | SlideQuantum ms => Normal (setTickRate ms s)
  | InjectionTimer clientId newId type price now =>
      if injectorRunning s then addMessage clientId newId type price now s
      else Normal s
  | SchedulerTimer now ids =>
      if schedulerRunning s then Normal (tick now ids s) else Normal s
  end.

(** An event, the render it causes and the effects of that render, taken
    as one step: no other callback runs before the refs are up to date.  The
    source does not order the two timers this way; [schedule] below lets
    callbacks and renders come in any order. *)
Definition dispatch (ev : Event) (s : State) : Completion State :=
  s' ←c handle ev s; Normal (syncRefs s').

(** ** Runs of injections and ticks

    The two interval callbacks on their own, each followed at once by its
    render and the effects that bring the refs up to date.  These are the
    rendered runs; [schedule] below drops that assumption. *)
Inductive Op :=
| Inject (clientId : ClientId) (newId : string) (type : MsgType)
    (price : string) (now : Z)
| Tick (now : Z) (ids : nat → string).

Definition perform (op : Op) (s : State) : Completion State :=
  match op with
  | Inject clientId newId type price now =>
      s' ←c addMessage clientId newId type price now s; Normal (syncRefs s')
  | Tick now ids => Normal (syncRefs (tick now ids s))
  end.

Fixpoint run (ops : list Op) (s : State) : Completion State :=
  match ops with
  | [] => Normal s
  | op :: rest => s' ←c perform op s; run rest s'
  end.

(** The state right after [initializeSystem(cores)] on a newly mounted
    component. *)
Definition configured (cores : nat) : State :=
  syncRefs (initializeSystem cores initialState).

(** ** Observations used in the statements *)

(** The [ProcessedLog]s a tick started in [s] produces. *)
Definition tickBatch (now : Z) (ids : nat → string) (s : State) : list ProcessedLog :=
  processedItems (tickLoop now ids s).

(** [queues[c].length], with a missing entry counted as empty. *)
Definition queueLength (q : Queues) (c : ClientId) : nat := length (q !!! c).

(** The lengths of the four client queues, added up. *)
Definition queueTotal (q : Queues) : nat :=
  sum_list (queueLength q <$> CLIENTS).

(** Number of injections in a run. *)
Fixpoint injections (ops : list Op) : nat :=
  match ops with
  | [] => 0
  | Inject _ _ _ _ _ :: rest => S (injections rest)
  | Tick _ _ :: rest => injections rest
  end.

(** All records produced along a run started in [s], the latest first. *)
Fixpoint produced (ops : list Op) (s : State) : list ProcessedLog :=
  match ops with
  | [] => []
  | op :: rest =>
      let batch :=
        match op with
        | Tick now ids => tickBatch now ids s
        | Inject _ _ _ _ _ => []
        end in
      match perform op s with
      | Normal s' => produced rest s' ++ batch
      | Throw _ => batch
      end
  end.

(** The messages the loop took from the queue of [c], in the order of the
    cores that took them: record and block number [k] of a tick are pushed
    together, and the block names the queue. *)
Definition servedFrom (c : ClientId) (L : Snapshot) : list Message :=
  (p_msg ∘ fst) <$>
    filter (λ pg, g_clientId pg.2 = c) (zip (processedItems L) (ganttItems L)).

(** The sum of the latencies of a batch. *)
Definition latencySum (items : list ProcessedLog) : Z :=
  foldr (λ item acc, latencyMs item + acc) 0 items.

(** The state of a core after one tick. *)
Definition advance (state : CoreState) : CoreState :=
  {| clientIndex := (clientIndex state + 1) mod length CLIENTS |}.

(** The client a core points at: [CLIENTS[state.clientIndex]]. *)
Definition target (cs : list CoreState) (coreId : nat) : option ClientId :=
  state ← cs !! coreId; CLIENTS !! clientIndex state.

(** The refs hold what the state cells hold. *)
Definition synced (s : State) : Prop :=
  queuesRef s = queues s ∧ coreStatesRef s = coreStates s.

(** Every client has an entry in the queue object. *)
Definition allQueues (q : Queues) : Prop := ∀ c, is_Some (q !! c).

(** The values of [Date.now()] read by the ticks of a run, in order. *)
Fixpoint tickTimes (ops : list Op) : list Z :=
  match ops with
  | [] => []
  | Tick now _ :: rest => now :: tickTimes rest
  | Inject _ _ _ _ _ :: rest => tickTimes rest
  end.

(** [r1] was not processed before [r2]. *)
Definition newerFirst (r1 r2 : ProcessedLog) : Prop :=
  processedAt r2 ≤ processedAt r1.

(** The record core [coreId] pushes at time [now] for [msg]. *)
Definition recordOf (now : Z) (coreId : nat) (msg : Message) : ProcessedLog :=
  {| p_msg := msg; processedAt := now;
     latencyMs := now - m_timestamp msg; p_coreId := coreId |}.

(** The balance kept along a run: the refs are in step with the state, every
    queue exists, and queued plus processed messages add up to [injected]. *)
Definition balanced (s : State) (injected : Z) : Prop :=
  synced s
  ∧ allQueues (queues s)
  ∧ Z.of_nat (queueTotal (queues s)) + totalProcessed (metrics s) = injected.

(** [play evs s]: the events of [evs], one after the other. *)
Fixpoint play (evs : list Event) (s : State) : Completion State :=
  match evs with
  | [] => Normal s
  | ev :: rest => s' ←c dispatch ev s; play rest s'
  end.

(** ** Sample states *)

(** [setQueues(q)] *)
Definition setQueues (q : Queues) (s : State) : State :=
  {| configMode := configMode s;
     cpuCount := cpuCount s;
     queues := q;
     logs := logs s;
     ganttHistory := ganttHistory s;
     coreStates := coreStates s;
     isProcessing := isProcessing s;
     autoInject := autoInject s;
     tickRate := tickRate s;
     metrics := metrics s;
     queuesRef := queuesRef s;
     coreStatesRef := coreStatesRef s |}.

Definition sampleId : nat → string := λ _, "k3j9x0q2a".

Definition sampleMessage (c : ClientId) : Message :=
  {| m_id := "p0o9i8u7y";
     m_clientId := c;
     m_content := "BUY @ 512.25";
     m_timestamp := 1000;
     m_type := BUY |}.

(** One core, one message waiting for APEX. *)
Definition oneWaiting : State :=
  syncRefs (setQueues (<[APEX := [sampleMessage APEX]]> emptyQueues)
              (initializeSystem 1 initialState)).

(** One core, one message waiting for every client. *)
Definition allWaiting : State :=
  syncRefs
    (setQueues
       (<[FLUX := [sampleMessage FLUX]]>
          (<[ZEUS := [sampleMessage ZEUS]]>
             (<[NOVA := [sampleMessage NOVA]]>
                (<[APEX := [sampleMessage APEX]]> emptyQueues))))
       (initializeSystem 1 initialState)).

(** Five cores, so that cores 0 and 4 both start on APEX, and one message
    waiting for APEX. *)
Definition fiveCores : State :=
  syncRefs (setQueues (<[APEX := [sampleMessage APEX]]> emptyQueues)
              (initializeSystem 5 initialState)).

(** Two cores after their first tick. *)
Definition twoCoresTicked : State :=
  tick 2200 sampleId (setIsProcessing true (configured 2)).

(** The core states [initializeSystem(cores)] builds, after [t] ticks. *)
Definition rotated (t cores : nat) : list CoreState :=
  (fun i => {| clientIndex := (i + t) mod length CLIENTS |}) <$> seq 0 cores.

(** What holds of every state the events can lead to. *)
Definition wellFormed (s : State) : Prop :=
  synced s
  ∧ allQueues (queues s)
  ∧ (length (logs s) ≤ 50)%nat
  ∧ (length (ganttHistory s) ≤ 100)%nat
  ∧ 0 ≤ totalProcessed (metrics s)
  ∧ (cpuCount s ≤ 4)%nat
  ∧ ∃ t, coreStates s = rotated t (cpuCount s).

(** ** Further observations *)

(** The number of cores among the first [n] that point at [c]. *)
Definition pointing (c : ClientId) (cs : list CoreState) (n : nat) : nat :=
  length (filter (λ k, target cs k = Some c) (seq 0 n)).

(** All blocks pushed along a run started in [s], the oldest first. *)
Fixpoint drawn (ops : list Op) (s : State) : list GanttBlock :=
  match ops with
  | [] => []
  | op :: rest =>
      let blocks :=
        match op with
        | Tick now ids => ganttItems (tickLoop now ids s)
        | Inject _ _ _ _ _ => []
        end in
      match perform op s with
      | Normal s' => blocks ++ drawn rest s'
      | Throw _ => blocks
      end
  end.

(** The values of [Date.now()] read along a run, by injections and ticks. *)
Fixpoint opTimes (ops : list Op) : list Z :=
  match ops with
  | [] => []
  | Tick now _ :: rest => now :: opTimes rest
  | Inject _ _ _ _ now :: rest => now :: opTimes rest
  end.

(** Every queue holds messages of its own client only. *)
Definition homed (q : Queues) : Prop :=
  ∀ c m, m ∈ q !!! c → m_clientId m = c.

(** ** The tutorial *)

(** An element of [TUTORIAL_STEPS]. *)
Record TutorialStepData := mkTutorialStep {
  targetId : option string;
  title : string;
  content : string;
  position : string
}.

Definition TUTORIAL_STEPS : list TutorialStepData :=
  [ {| targetId := None;
       title := "Welcome to AlphaStream";
       content := "This is a cinematic simulation of a Cloud-Based Message Processor. We visualize how servers handle multiple incoming streams using the 'Round Robin' scheduling algorithm.";
       position := "center" |};
    {| targetId := Some "processor-core";
       title := "Multi-Core Processing";
       content := "New Feature: You have configured the hardware with specific CPU cores. Each core runs its own Round Robin cycle independently. They are now color-coded to help you track their individual progress.";
       position := "left" |};
    {| targetId := Some "view-toggle";
       title := "Visualization Modes";
       content := "Switch between 'Queue Grid' and 'Gantt Chart'. The Gantt chart now visualizes the CPU history across all your active cores, complete with time data.";
       position := "bottom-left" |};
    {| targetId := Some "queue-grid";
       title := "The Client Queues";
       content := "Messages arrive here. When a CPU Core processes a queue, the entire column will light up in that Core's specific color (Blue, Orange, Fuchsia, or Lime).";
       position := "right" |};
    {| targetId := Some "controls-area";
       title := "System Controls";
       content := "Use 'INJECT DATA' to simulate traffic. Use the Power button (top right) to Reset the system and change the Core count.";
       position := "bottom-left" |} ].

(** [TUTORIAL_STEPS[tutorialStep]], for the integer in the [tutorialStep]
    cell; [None] is [undefined]. *)
Definition stepAt (tutorialStep : Z) : option TutorialStepData :=
  if bool_decide (0 ≤ tutorialStep) then TUTORIAL_STEPS !! Z.to_nat tutorialStep
  else None.

(** [const isTutorialActive = tutorialStep >= 0] *)
Definition isTutorialActive (tutorialStep : Z) : bool :=
  bool_decide (0 ≤ tutorialStep).

Definition nextStep (tutorialStep : Z) : Z :=
  if bool_decide (tutorialStep < Z.of_nat (length TUTORIAL_STEPS) - 1)
  then tutorialStep + 1
  else -1.

Definition prevStep (tutorialStep : Z) : Z :=
  if bool_decide (0 < tutorialStep) then tutorialStep - 1 else tutorialStep.

Definition skipTutorial : Z := -1.
Definition startTutorial : Z := 0.

Definition highlighted : string :=
  "z-50 relative ring-2 ring-cyan-400 ring-offset-4 ring-offset-slate-900 rounded-lg transition-all duration-300 shadow-[0_0_50px_rgba(34,211,238,0.3)] bg-slate-900/80".

Definition dimmed : string :=
  "opacity-40 pointer-events-none filter blur-[1px]".

Definition getHighlightClass (tutorialStep : Z) (id : string) : string :=
  if negb (isTutorialActive tutorialStep) then ""
  else
    match stepAt tutorialStep with
    | None => ""
    | Some step =>
        if bool_decide (targetId step = Some id) then highlighted else dimmed
    end.

(** [currentStepData ? currentStepData.targetId : null] *)
Definition currentTargetId (tutorialStep : Z) : option string :=
  if isTutorialActive tutorialStep
  then match stepAt tutorialStep with
       | Some step => targetId step
       | None => None
       end
  else None.

(** [[...].includes(currentTargetId || "")] *)
Definition isHeaderHighlighted (tutorialStep : Z) : bool :=
  bool_decide (default "" (currentTargetId tutorialStep)
                 ∈ ["controls-area"; "quantum-slider"; "view-toggle"]).

Definition isSidebarHighlighted (tutorialStep : Z) : bool :=
  bool_decide (default "" (currentTargetId tutorialStep)
                 ∈ ["processor-core"; "execution-logs"]).

(** The clicks that write the [tutorialStep] cell; [resetSystem] writes it
    too. *)
Inductive TutorialClick := ClickNext | ClickBack | ClickSkip | ClickTutorial | ClickPower.

Definition tutorialClick (tutorialStep : Z) (click : TutorialClick) : Z :=
  match click with
  | ClickNext => nextStep tutorialStep
  | ClickBack => prevStep tutorialStep
  | ClickSkip => skipTutorial
  | ClickTutorial => startTutorial
  | ClickPower => -1
  end.

(** ** The core themes and the client columns *)

(** An element of [CORE_THEMES]; the fields carry the prefix [th_]. *)
Record CoreTheme := mkCoreTheme {
  th_name : string;
  th_border : string;
  th_text : string;
  th_bg : string;
  th_badge : string;
  th_gradient : string;
  th_shadow : string
}.

Definition CORE_THEMES : list CoreTheme :=
  [ {| th_name := "BLUE"; th_border := "border-blue-500";
       th_text := "text-blue-400"; th_bg := "bg-blue-500/20";
       th_badge := "bg-blue-500"; th_gradient := "from-blue-500";
       th_shadow := "shadow-blue-500/50" |};
    {| th_name := "ORANGE"; th_border := "border-orange-500";
       th_text := "text-orange-400"; th_bg := "bg-orange-500/20";
       th_badge := "bg-orange-500"; th_gradient := "from-orange-500";
       th_shadow := "shadow-orange-500/50" |};
    {| th_name := "FUCHSIA"; th_border := "border-fuchsia-500";
       th_text := "text-fuchsia-400"; th_bg := "bg-fuchsia-500/20";
       th_badge := "bg-fuchsia-500"; th_gradient := "from-fuchsia-500";
       th_shadow := "shadow-fuchsia-500/50" |};
    {| th_name := "LIME"; th_border := "border-lime-500";
       th_text := "text-lime-400"; th_bg := "bg-lime-500/20";
       th_badge := "bg-lime-500"; th_gradient := "from-lime-500";
       th_shadow := "shadow-lime-500/50" |} ].

(** An element of [activeCores]: [{ ...s, id: idx }]. *)
Record ActiveCore := mkActiveCore { ac_clientIndex : nat; ac_id : nat }.

(** [coreStates.map((s, idx) => ({ ...s, id: idx }))
       .filter((s) => CLIENTS[s.clientIndex] === id)] *)
Definition activeCores (id : ClientId) (cs : list CoreState) : list ActiveCore :=
  filter (λ a, CLIENTS !! ac_clientIndex a = Some id)
    (imap (λ idx s, {| ac_clientIndex := clientIndex s; ac_id := idx |}) cs).

Definition isTargeted (id : ClientId) (cs : list CoreState) : bool :=
  bool_decide (0 < length (activeCores id cs))%nat.

(** [activeCores.length > 0 ? activeCores[0].id : 0] *)
Definition primaryCoreId (id : ClientId) (cs : list CoreState) : nat :=
  match activeCores id cs with
  | a :: _ => ac_id a
  | [] => 0
  end.

(** The background class of a column: [coreTheme.bg] is read only when the
    column is targeted, and reading it throws when [CORE_THEMES] has no entry
    for the core. *)
Definition columnBackground (id : ClientId) (cs : list CoreState) : Completion string :=
  if isTargeted id cs then
    match CORE_THEMES !! primaryCoreId id cs with
    | Some coreTheme =>
        Normal (th_bg coreTheme +:+ " shadow-[inset_0_0_30px_rgba(0,0,0,0.3)]")
    | None => Throw TypeError
    end
  else Normal "bg-slate-950/50".

(** The badge classes of a column: [CORE_THEMES[c.id].badge] for each active
    core. *)
Fixpoint badgeClasses (cores : list ActiveCore) : Completion (list string) :=
  match cores with
  | [] => Normal []
  | a :: rest =>
      match CORE_THEMES !! ac_id a with
      | Some theme => bs ←c badgeClasses rest; Normal (th_badge theme :: bs)
      | None => Throw TypeError
      end
  end.

Definition columnBadges (id : ClientId) (cs : list CoreState) : Completion (list string) :=
  badgeClasses (activeCores id cs).

(** ** The Gantt panel *)

(** [Math.max(100, ganttHistory.length * 40)], the width in pixels. *)
Definition ganttWidth (history : list GanttBlock) : Z :=
  100 `max` (Z.of_nat (length history) * 40).

(** [ganttHistory.findIndex((b) => b.id === id)], which is -1 when no block
    has the id. *)
Definition findIndexById (id : string) (history : list GanttBlock) : Z :=
  match list_find (λ b, g_id b = id) history with
  | Some (i, _) => Z.of_nat i
  | None => -1
  end.

(** The [left] offset of the bar of a block, in pixels. *)
Definition barLeft (history : list GanttBlock) (block : GanttBlock) : Z :=
  findIndexById (g_id block) history * 40.

(** The bars of the row of a client:
    [ganttHistory.filter((b) => b.clientId === client)]. *)
Definition ganttRow (client : ClientId) (history : list GanttBlock) : list GanttBlock :=
  filter (λ b, g_clientId b = client) history.

(** ** The core visualizer *)

(** What [CoreVisualizer] puts on the screen for a core. *)
Record CoreView := mkCoreView {
  cv_sizeClass : string;
  cv_labelClass : string;
  cv_border : string;
  cv_degrees : nat;
  cv_label : option ClientId
}.

(** [CoreVisualizer({ coreId, state })]: [None] is the [null] returned for a
    missing state; reading [theme.border] throws when [CORE_THEMES] has no
    entry for the core. *)
Definition CoreVisualizer (cpus coreId : nat) (state : option CoreState)
    : Completion (option CoreView) :=
  let sizeClass :=
    if bool_decide (cpus = 1%nat) then "w-32 h-32"
    else if bool_decide (cpus = 2%nat) then "w-24 h-24" else "w-20 h-20" in
  let labelClass :=
    if bool_decide (2 < cpus)%nat then "text-[8px]" else "text-[10px]" in
  match state with
  | None => Normal None
  | Some state =>
      match CORE_THEMES !! coreId with
      | None => Throw TypeError
      | Some theme =>
          Normal (Some {| cv_sizeClass := sizeClass;
                          cv_labelClass := labelClass;
                          cv_border := th_border theme;
                          cv_degrees := clientIndex state * 90;
                          cv_label := CLIENTS !! clientIndex state |})
      end
  end.

(** ** Callbacks and renders in any order

    A timer callback runs to completion, but the render it asks for, and the
    effects that copy the state cells into the refs, come later; another
    timer callback can run first.  A schedule lists callbacks and renders in
    the order they happen.  An updater passed to [setQueues] is applied to
    the cell in the order of the calls, which is how React applies the queued
    updates at the next render. *)
Inductive Moment :=
| Callback (op : Op)
| Render.

Definition moment (m : Moment) (s : State) : Completion State :=
  match m with
  | Callback (Inject clientId newId type price now) =>
      addMessage clientId newId type price now s
  | Callback (Tick now ids) => Normal (tick now ids s)
  | Render => Normal (syncRefs s)
  end.

Fixpoint schedule (ms : list Moment) (s : State) : Completion State :=
  match ms with
  | [] => Normal s
  | m :: rest => s' ←c moment m s; schedule rest s'
  end.

(** Number of injections in a schedule. *)
Fixpoint injected (ms : list Moment) : nat :=
  match ms with
  | [] => 0
  | Callback (Inject _ _ _ _ _) :: rest => S (injected rest)
  | _ :: rest => injected rest
  end.

(** The schedule of a rendered run: a render after every callback. *)
Definition rendered (ops : list Op) : list Moment :=
  ops ≫= λ op, [Callback op; Render].

(** ** Numbers as doubles

    The numbers of the source are IEEE 754 binary64 values.  Integers of
    magnitude up to [MAX_SAFE_INTEGER] are represented exactly, and sums,
    products and floored quotients of such integers are exact as long as the
    results stay in that range; there the integer arithmetic used in
    [updateMetrics] and [coreStep] is the arithmetic of the source. *)
Definition MAX_SAFE_INTEGER : Z := 9007199254740991.

Definition safeInteger (z : Z) : Prop :=
  - MAX_SAFE_INTEGER ≤ z ≤ MAX_SAFE_INTEGER.

(** The values [sum + item.latencyMs] the callback of [reduce] returns. *)
Fixpoint runningSums (sum : Z) (items : list ProcessedLog) : list Z :=
  match items with
  | [] => []
  | item :: rest => (sum + latencyMs item) :: runningSums (sum + latencyMs item) rest
  end.

(** Every number the updater of [setMetrics] reads or computes for this batch
    is a safe integer. *)
Definition exactBatch (items : list ProcessedLog) (prev : Metrics) : Prop :=
  safeInteger (totalProcessed prev)
  ∧ safeInteger (avgLatency prev)
  ∧ Forall (λ item, safeInteger (latencyMs item)) items
  ∧ safeInteger (totalProcessed prev + Z.of_nat (length items))
  ∧ Forall safeInteger (runningSums 0 items)
  ∧ safeInteger (avgLatency prev * totalProcessed prev)
  ∧ safeInteger (avgLatency prev * totalProcessed prev + latencySum items).

(** The binary64 operations, as the Standard Library specifies them. *)
Definition toDouble (z : Z) : SpecFloat.spec_float :=
  SpecFloat.binary_normalize 53 1024 z 0 false.

Definition addDouble : SpecFloat.spec_float → SpecFloat.spec_float → SpecFloat.spec_float :=
  SpecFloat.SFadd 53 1024.

Definition mulDouble : SpecFloat.spec_float → SpecFloat.spec_float → SpecFloat.spec_float :=
  SpecFloat.SFmul 53 1024.

Definition divDouble : SpecFloat.spec_float → SpecFloat.spec_float → SpecFloat.spec_float :=
  SpecFloat.SFdiv 53 1024.

(** [Math.floor]: a finite value with a fractional part is cut down to the
    next integer; zeros, integers, infinities and NaN are returned as they
    are. *)
Definition floorDouble (x : SpecFloat.spec_float) : SpecFloat.spec_float :=
  match x with
  | SpecFloat.S754_finite sign mantissa exponent =>
      if bool_decide (0 ≤ exponent) then x
      else toDouble (SpecFloat.cond_Zopp sign (Z.pos mantissa) `div` 2 ^ (- exponent))
  | _ => x
  end.

(** The updater passed to [setMetrics], computed in doubles: the new
    [totalProcessed] and the new [avgLatency]. *)
Definition updateMetricsDouble (items : list ProcessedLog) (prev : Metrics)
    : SpecFloat.spec_float * SpecFloat.spec_float :=
  let newTotal :=
    addDouble (toDouble (totalProcessed prev)) (toDouble (Z.of_nat (length items))) in
  let batchLatency :=
    foldl (λ sum item, addDouble sum (toDouble (latencyMs item))) (toDouble 0) items in
  let newAvg :=
    floorDouble
      (divDouble
         (addDouble (mulDouble (toDouble (avgLatency prev))
                       (toDouble (totalProcessed prev)))
            batchLatency)
         newTotal) in
  (newTotal, newAvg).

(** Two cores; a message of time 0 waits for APEX and one of time 1 for
    NOVA. *)
Definition farApart : State :=
  syncRefs
    (setQueues
       (<[NOVA := [mkMessage "q1w2e3r4t" NOVA "PING @ 100.00" 1 PING]]>
          (<[APEX := [mkMessage "p0o9i8u7y" APEX "BUY @ 512.25" 0 BUY]]> emptyQueues))
       (initializeSystem 2 initialState)).

(** * Properties *)

(** ** The core loop, one iteration at a time *)

Section CoreLoop.
Variables (now rate : Z) (ids : nat → string).

Local Abbreviation step := (coreStep now rate ids).
Local Abbreviation loop := (coreLoop now rate ids).

Lemma coreLoop_0 L : loop 0 L = L.
Proof. reflexivity. Qed.

Lemma coreLoop_S n L : loop (S n) L = step (loop n L) n.
Proof. unfold coreLoop. by rewrite seq_S, foldl_app. Qed.

(** The pointer array after one iteration. *)
Lemma coreStep_states L k :
  currentCoreStates (step L k) =
    match currentCoreStates L !! k with
    | Some state => <[k := advance state]> (currentCoreStates L)
    | None => currentCoreStates L
    end.
Proof.
  unfold coreStep.
  destruct (currentCoreStates L !! k) as [state|]; [|done].
  simpl. destruct (CLIENTS !! clientIndex state) as [c|]; [|done].
  by destruct (currentQueues L !! c) as [[|msg remaining]|].
Qed.

(** The pointer array after [n] iterations: the first [n] cores have
    advanced, the others have not been touched. *)
Lemma coreLoop_states n L :
  currentCoreStates (loop n L) =
    (advance <$> take n (currentCoreStates L)) ++ drop n (currentCoreStates L).
Proof.
  induction n as [|n IH]; [by rewrite coreLoop_0, take_0, drop_0|].
  rewrite coreLoop_S, coreStep_states, IH.
  set (cs := currentCoreStates L).
  assert (length (advance <$> take n cs) = n `min` length cs)%nat as Hlen
    by by rewrite length_fmap, length_take.
  destruct (decide (n < length cs)%nat) as [Hlt|Hge].
  - destruct (lookup_lt_is_Some_2 cs n Hlt) as [state Hstate].
    rewrite lookup_app_r by lia.
    replace (n - length (advance <$> take n cs))%nat with 0%nat by lia.
    rewrite (drop_S _ _ _ Hstate). simpl.
    rewrite insert_app_r_alt by lia.
    replace (n - length (advance <$> take n cs))%nat with 0%nat by lia.
    simpl. rewrite (take_S_r _ _ _ Hstate), fmap_app. simpl.
    by rewrite <- app_assoc.
  - rewrite lookup_app_r by lia.
    rewrite lookup_drop, lookup_ge_None_2 by lia.
    by rewrite !take_ge, !drop_ge by lia.
Qed.

(** Core [k] still has its pointer of the start of the tick when its
    iteration begins. *)
Lemma coreLoop_states_later n L k :
  (n ≤ k)%nat →
  currentCoreStates (loop n L) !! k = currentCoreStates L !! k.
Proof.
  intros Hk. rewrite coreLoop_states.
  set (cs := currentCoreStates L).
  destruct (decide (n ≤ length cs)%nat).
  - rewrite lookup_app_r; rewrite length_fmap, length_take; [|lia].
    rewrite lookup_drop. f_equal. lia.
  - rewrite take_ge, drop_ge, app_nil_r by lia.
    rewrite !lookup_ge_None_2; [done|lia|rewrite length_fmap; lia].
Qed.

(** A core that has had its iteration has advanced by one position. *)
Lemma coreLoop_states_earlier n L k state :
  (k < n)%nat →
  currentCoreStates L !! k = Some state →
  currentCoreStates (loop n L) !! k = Some (advance state).
Proof.
  intros Hk Hstate. rewrite coreLoop_states.
  pose proof (lookup_lt_Some _ _ _ Hstate).
  rewrite lookup_app_l by (rewrite length_fmap, length_take; lia).
  by rewrite list_lookup_fmap, lookup_take_lt, Hstate by lia.
Qed.

(** An iteration whose core has no message to take leaves the queues and
    both output arrays as they are. *)
Lemma coreStep_idle L k :
  (∀ c, target (currentCoreStates L) k = Some c → currentQueues L !!! c = []) →
  currentQueues (step L k) = currentQueues L
  ∧ processedItems (step L k) = processedItems L
  ∧ ganttItems (step L k) = ganttItems L.
Proof.
  unfold target, coreStep. intros Hidle.
  destruct (currentCoreStates L !! k) as [state|]; [|done]. simpl in *.
  destruct (CLIENTS !! clientIndex state) as [c|]; [|done].
  specialize (Hidle c eq_refl). rewrite lookup_total_alt in Hidle.
  destruct (currentQueues L !! c) as [[|msg remaining]|]; done.
Qed.

(** An iteration whose core finds a message takes the head of that queue and
    pushes one record and one block. *)
Lemma coreStep_serve L k c msg remaining :
  target (currentCoreStates L) k = Some c →
  currentQueues L !! c = Some (msg :: remaining) →
  currentQueues (step L k) = <[c := remaining]> (currentQueues L)
  ∧ processedItems (step L k) =
      processedItems L ++
        [ {| p_msg := msg; processedAt := now;
             latencyMs := now - m_timestamp msg; p_coreId := k |} ]
  ∧ ganttItems (step L k) =
      ganttItems L ++
        [ {| g_id := ids k; g_clientId := c; startTime := now - rate;
             endTime := now; g_coreId := k |} ].
Proof.
  unfold target, coreStep. intros Htarget Hqueue.
  destruct (currentCoreStates L !! k) as [state|]; [|done]. simpl in *.
  by rewrite Htarget, Hqueue.
Qed.

(** Every iteration is of one of the two kinds. *)
Lemma coreStep_cases L k :
  (∀ c, target (currentCoreStates L) k = Some c → currentQueues L !!! c = [])
  ∨ ∃ c msg remaining,
      target (currentCoreStates L) k = Some c
      ∧ currentQueues L !! c = Some (msg :: remaining).
Proof.
  destruct (target (currentCoreStates L) k) as [c|] eqn:Htarget; [|by left].
  destruct (currentQueues L !! c) as [[|msg remaining]|] eqn:Hqueue.
  - left. intros c' [= <-]. by rewrite lookup_total_alt, Hqueue.
  - right. by exists c, msg, remaining.
  - left. intros c' [= <-]. by rewrite lookup_total_alt, Hqueue.
Qed.

End CoreLoop.

(** ** Queue lengths *)

Lemma queueTotal_insert (q : Queues) c old new :
  q !! c = Some old →
  (queueTotal (<[c := new]> q) + length old = queueTotal q + length new)%nat.
Proof.
  intros Hold. apply lookup_total_correct in Hold.
  unfold queueTotal, queueLength, CLIENTS. simpl.
  destruct c;
    rewrite ?lookup_total_insert_eq, ?lookup_total_insert_ne by done;
    rewrite ?Hold; lia.
Qed.

Lemma queueTotal_emptyQueues : queueTotal emptyQueues = 0%nat.
Proof. reflexivity. Qed.

Lemma allQueues_emptyQueues : allQueues emptyQueues.
Proof. intros []; by eexists. Qed.

Lemma allQueues_insert (q : Queues) c l : allQueues q → allQueues (<[c := l]> q).
Proof.
  intros Hall c'. destruct (decide (c = c')) as [->|Hne].
  - rewrite lookup_insert_eq. by eexists.
  - by rewrite lookup_insert_ne.
Qed.

(** ** Messages are neither lost nor duplicated by the loop *)

Section Conservation.
Variables (now rate : Z) (ids : nat → string).

Lemma coreStep_total L k :
  (queueTotal (currentQueues (coreStep now rate ids L k))
     + length (processedItems (coreStep now rate ids L k))
   = queueTotal (currentQueues L) + length (processedItems L))%nat.
Proof.
  destruct (coreStep_cases L k) as [Hidle|(c & msg & remaining & Htarget & Hqueue)].
  - destruct (coreStep_idle now rate ids L k Hidle) as (-> & -> & _). done.
  - destruct (coreStep_serve now rate ids L k c msg remaining Htarget Hqueue)
      as (-> & -> & _).
    pose proof (queueTotal_insert _ _ _ remaining Hqueue) as Hins.
    rewrite length_app. simpl in *. lia.
Qed.

Lemma coreLoop_total n L :
  (queueTotal (currentQueues (coreLoop now rate ids n L))
     + length (processedItems (coreLoop now rate ids n L))
   = queueTotal (currentQueues L) + length (processedItems L))%nat.
Proof.
  induction n as [|n IH]; [done|].
  rewrite coreLoop_S, coreStep_total. exact IH.
Qed.

Lemma coreStep_allQueues L k :
  allQueues (currentQueues L) →
  allQueues (currentQueues (coreStep now rate ids L k)).
Proof.
  intros Hall.
  destruct (coreStep_cases L k) as [Hidle|(c & msg & remaining & Htarget & Hqueue)].
  - by destruct (coreStep_idle now rate ids L k Hidle) as (-> & _).
  - destruct (coreStep_serve now rate ids L k c msg remaining Htarget Hqueue)
      as (-> & _).
    by apply allQueues_insert.
Qed.

Lemma coreLoop_allQueues n L :
  allQueues (currentQueues L) →
  allQueues (currentQueues (coreLoop now rate ids n L)).
Proof.
  intros Hall. induction n as [|n IH]; [done|].
  rewrite coreLoop_S. by apply coreStep_allQueues.
Qed.

End Conservation.

(** The balance a tick keeps: what leaves the queues is counted in
    [totalProcessed]. *)
Lemma tick_balance now ids s :
  Z.of_nat (queueTotal (queues (tick now ids s)))
    + totalProcessed (metrics (tick now ids s))
  = Z.of_nat (queueTotal (queuesRef s)) + totalProcessed (metrics s).
Proof.
  pose proof (coreLoop_total now (tickRate s) ids (cpuCount s) (snapshot s)) as Htotal.
  unfold tick. fold (tickLoop now ids s) in Htotal. simpl in *.
  case_bool_decide as Hlen; simpl; lia.
Qed.

Lemma tick_allQueues now ids s :
  allQueues (queuesRef s) → allQueues (queues (tick now ids s)).
Proof. intros Hall. by apply coreLoop_allQueues. Qed.

Lemma syncRefs_synced s : synced (syncRefs s).
Proof. by split. Qed.

Lemma syncRefs_id s : synced s → syncRefs s = s.
Proof. destruct s; intros [Hq Hc]; simpl in *. by subst. Qed.

Lemma tick_synced now ids s : synced (tick now ids s).
Proof. by split. Qed.

Lemma configured_balanced cores : balanced (configured cores) 0.
Proof. split; [by split|]. split; [apply allQueues_emptyQueues|done]. Qed.

Lemma perform_balanced op s injected :
  balanced s injected →
  ∃ s', perform op s = Normal s'
        ∧ balanced s' (injected + Z.of_nat (injections [op])).
Proof.
  intros ([Hq Hc] & Hall & Hsum). destruct op as [c newId type price now|now ids].
  - destruct (Hall c) as [old Hold].
    simpl. unfold addMessage. rewrite Hold. simpl. eexists; split; [done|].
    split; [by split|]. split; simpl.
    + by apply allQueues_insert.
    + pose proof (queueTotal_insert _ _ _
        (old ++ [mkMessage newId c (MsgType_text type +:+ " @ " +:+ price) now type])
        Hold) as Hins.
      rewrite length_app in Hins. simpl in Hins. lia.
  - simpl. eexists; split; [done|].
    rewrite (syncRefs_id _ (tick_synced now ids s)).
    split; [apply tick_synced|]. split.
    + apply tick_allQueues. by rewrite Hq.
    + rewrite tick_balance, Hq. lia.
Qed.

Lemma run_balanced ops s injected :
  balanced s injected →
  ∃ s', run ops s = Normal s'
        ∧ balanced s' (injected + Z.of_nat (injections ops)).
Proof.
  revert s injected. induction ops as [|op ops IH]; intros s injected Hbal.
  - exists s. split; [done|]. simpl. by rewrite Z.add_0_r.
  - destruct (perform_balanced op s injected Hbal) as (s1 & Hstep & Hbal1).
    destruct (IH s1 _ Hbal1) as (s' & Hrun & Hbal').
    exists s'. split; [simpl; by rewrite Hstep|].
    replace (injected + Z.of_nat (injections (op :: ops)))
      with (injected + Z.of_nat (injections [op]) + Z.of_nat (injections ops));
      [done|].
    destruct op; simpl; lia.
Qed.

(** X25. Conservation on rendered runs: when every injection and every tick
    applied to a freshly configured system is followed by its render, and by
    the effects that bring the refs up to date, before the next callback
    runs, the run completes normally, and the lengths of the four client
    queues added to [metrics.totalProcessed] give the number of messages
    injected. *)
Theorem conservation_of_messages (cores : nat) (ops : list Op) :
  ∃ s, run ops (configured cores) = Normal s
       ∧ Z.of_nat (queueTotal (queues s)) + totalProcessed (metrics s)
         = Z.of_nat (injections ops).
Proof.
  destruct (run_balanced ops _ 0 (configured_balanced cores))
    as (s & Hrun & _ & _ & Hsum).
  exists s. split; [done|]. by rewrite Hsum.
Qed.

(** ** Rotation *)

Lemma tick_coreStates now ids s :
  coreStates (tick now ids s) =
    (advance <$> take (cpuCount s) (coreStatesRef s))
      ++ drop (cpuCount s) (coreStatesRef s).
Proof. unfold tick, tickLoop. simpl. by rewrite coreLoop_states. Qed.

(** C3. Unconditional rotation advance: a tick moves the rotation index of
    every core below [cpuCount] to (old index + 1) mod 4, the number of
    clients, whatever the queues hold; an idle core advances like a busy
    one. *)
Theorem rotation_advance now ids s coreId state :
  (coreId < cpuCount s)%nat →
  coreStatesRef s !! coreId = Some state →
  coreStates (tick now ids s) !! coreId
    = Some {| clientIndex := (clientIndex state + 1) mod 4 |}
  ∧ coreStatesRef (tick now ids s) !! coreId
    = Some {| clientIndex := (clientIndex state + 1) mod 4 |}.
Proof.
  intros Hcore Hstate.
  assert (currentCoreStates (tickLoop now ids s) !! coreId = Some (advance state))
    as Hloop by by apply coreLoop_states_earlier.
  by split.
Qed.

Lemma rotation_advance_witness :
  coreStates (tick 7 (λ _, "g") (configured 2)) !! 1%nat
    = Some {| clientIndex := (1 + 1) mod 4 |}
  ∧ coreStatesRef (tick 7 (λ _, "g") (configured 2)) !! 1%nat
    = Some {| clientIndex := (1 + 1) mod 4 |}.
Proof.
  apply (rotation_advance 7 (λ _, "g") (configured 2) 1 {| clientIndex := 1 |}).
  - simpl. lia.
  - reflexivity.
Defined.

(** ** Idle ticks *)

Section Idle.
Variables (now rate : Z) (ids : nat → string).

Lemma target_later n L k :
  (n ≤ k)%nat →
  target (currentCoreStates (coreLoop now rate ids n L)) k
    = target (currentCoreStates L) k.
Proof. intros Hk. unfold target. by rewrite coreLoop_states_later. Qed.

Lemma coreLoop_idle count L n :
  (∀ coreId c, (coreId < count)%nat →
     target (currentCoreStates L) coreId = Some c → currentQueues L !!! c = []) →
  (n ≤ count)%nat →
  currentQueues (coreLoop now rate ids n L) = currentQueues L
  ∧ processedItems (coreLoop now rate ids n L) = processedItems L
  ∧ ganttItems (coreLoop now rate ids n L) = ganttItems L.
Proof.
  intros Hidle. induction n as [|n IH]; intros Hn; [done|].
  destruct IH as (Hq & Hp & Hg); [lia|].
  rewrite coreLoop_S.
  destruct (coreStep_idle now rate ids (coreLoop now rate ids n L) n)
    as (-> & -> & ->); [|done].
  intros c. rewrite target_later, Hq by done. apply Hidle. lia.
Qed.

End Idle.

(** X27. The frame of an idle tick: when no core below [cpuCount] points at
    a queue that holds a message in [queuesRef], the tick produces no record
    and leaves the record log, the interval history, the metrics,
    [queuesRef] and every other cell but two as they were: the rotation
    indices advance, and the [queues] cell receives the content of
    [queuesRef], which is the content it had if every injection had been
    rendered. *)
Theorem idle_tick_frame now ids s :
  (∀ coreId c, (coreId < cpuCount s)%nat →
     target (coreStatesRef s) coreId = Some c → queuesRef s !!! c = []) →
  tickBatch now ids s = []
  ∧ tick now ids s =
      {| configMode := configMode s;
         cpuCount := cpuCount s;
         queues := queuesRef s;
         logs := logs s;
         ganttHistory := ganttHistory s;
         coreStates := coreStates (tick now ids s);
         isProcessing := isProcessing s;
         autoInject := autoInject s;
         tickRate := tickRate s;
         metrics := metrics s;
         queuesRef := queuesRef s;
         coreStatesRef := coreStates (tick now ids s) |}.
Proof.
  intros Hidle.
  destruct (coreLoop_idle now (tickRate s) ids (cpuCount s) (snapshot s)
              (cpuCount s) Hidle (le_n _)) as (Hqueues & Hitems & Hgantt).
  fold (tickLoop now ids s) in Hqueues, Hitems, Hgantt. simpl in *.
  split; [exact Hitems|].
  unfold tick. by rewrite Hqueues, Hitems.
Qed.

Lemma idle_tick_frame_witness :
  tickBatch 5 (λ _, "g") (configured 3) = []
  ∧ queues (tick 5 (λ _, "g") (configured 3)) = queuesRef (configured 3)
  ∧ coreStates (tick 5 (λ _, "g") (configured 3))
    = [ {| clientIndex := 1 |}; {| clientIndex := 2 |}; {| clientIndex := 3 |} ].
Proof.
  assert (∀ coreId c, (coreId < cpuCount (configured 3))%nat →
            target (coreStatesRef (configured 3)) coreId = Some c →
            queuesRef (configured 3) !!! c = []) as Hidle
    by (intros coreId []; reflexivity).
  destruct (idle_tick_frame 5 (λ _, "g") (configured 3) Hidle) as [Hbatch Hframe].
  split; [exact Hbatch|]. split; [by rewrite Hframe|reflexivity].
Defined.

(** ** Metrics *)

Lemma foldl_latencySum items acc :
  foldl (λ sum item, sum + latencyMs item) acc items = acc + latencySum items.
Proof.
  revert acc. induction items as [|item items IH]; intros acc; simpl.
  - lia.
  - rewrite IH. lia.
Qed.

Lemma tick_metrics now ids s :
  metrics (tick now ids s) =
    if bool_decide (0 < length (tickBatch now ids s))%nat
    then updateMetrics (tickBatch now ids s) (metrics s)
    else metrics s.
Proof. reflexivity. Qed.

(** C4 (amended). Metrics exactness: a tick whose batch of records is not
    empty sets [totalProcessed] to the old total plus the size of the batch
    and, as long as every number the updater reads or computes for the batch
    is a safe integer (of magnitude below 2^53), [avgLatency] to the floor of
    (old average * old total + sum of the latencies of the batch) / new
    total; when that numerator is not negative the floor is the truncated
    quotient.  A tick whose batch is empty leaves the metrics as they
    were. *)
Theorem metrics_exactness now ids s :
  0 ≤ totalProcessed (metrics s) →
  (tickBatch now ids s ≠ [] →
   exactBatch (tickBatch now ids s) (metrics s) →
     totalProcessed (metrics (tick now ids s))
       = totalProcessed (metrics s) + Z.of_nat (length (tickBatch now ids s))
     ∧ avgLatency (metrics (tick now ids s))
       = (avgLatency (metrics s) * totalProcessed (metrics s)
            + latencySum (tickBatch now ids s))
         `div` (totalProcessed (metrics s)
                  + Z.of_nat (length (tickBatch now ids s)))
     ∧ (0 ≤ avgLatency (metrics s) * totalProcessed (metrics s)
              + latencySum (tickBatch now ids s) →
        avgLatency (metrics (tick now ids s))
          = (avgLatency (metrics s) * totalProcessed (metrics s)
               + latencySum (tickBatch now ids s))
            `quot` (totalProcessed (metrics s)
                      + Z.of_nat (length (tickBatch now ids s))))
     ∧ safeInteger (avgLatency (metrics (tick now ids s)))
     ∧ activeNodes (metrics (tick now ids s)) = activeNodes (metrics s))
  ∧ (tickBatch now ids s = [] → metrics (tick now ids s) = metrics s).
Proof.
  intros Htotal. rewrite tick_metrics. split.
  - intros Hbatch (_ & _ & _ & _ & _ & _ & Hnum).
    assert (0 < length (tickBatch now ids s))%nat as Hlen
      by (destruct (tickBatch now ids s); [done|simpl; lia]).
    rewrite bool_decide_eq_true_2 by done.
    unfold updateMetrics. simpl. rewrite foldl_latencySum, Z.add_0_l.
    split; [done|]. split; [done|]. split; [|split; [|done]].
    + intros Hnonneg. rewrite Z.quot_div_nonneg; [done|done|lia].
    + unfold safeInteger, MAX_SAFE_INTEGER in *.
      set (num := avgLatency (metrics s) * totalProcessed (metrics s)
                  + latencySum (tickBatch now ids s)) in *.
      set (den := totalProcessed (metrics s)
                  + Z.of_nat (length (tickBatch now ids s))).
      assert (0 < den) as Hden by (unfold den; lia).
      split.
      * apply Z.div_le_lower_bound; [done|]. nia.
      * apply Z.div_le_upper_bound; [done|]. nia.
  - intros ->. by rewrite bool_decide_eq_false_2 by (simpl; lia).
Qed.

(** ** The record log *)

Lemma take_app_take {A} n (a b : list A) :
  take n (a ++ take n b) = take n (a ++ b).
Proof. rewrite !take_app, take_take. f_equal. f_equal. lia. Qed.

Lemma tick_logs now ids s :
  (length (logs s) ≤ 50)%nat →
  logs (tick now ids s) = take 50 (tickBatch now ids s ++ logs s).
Proof.
  intros Hlen. unfold tick, tickBatch. simpl.
  case_bool_decide as Hbatch; [done|].
  destruct (processedItems (tickLoop now ids s)); [|simpl in Hbatch; lia].
  simpl. by rewrite take_ge.
Qed.

Lemma perform_logs op s s' :
  perform op s = Normal s' →
  (length (logs s) ≤ 50)%nat →
  logs s' = take 50 (produced [op] s ++ logs s).
Proof.
  intros Hstep Hlen. simpl. rewrite Hstep. simpl.
  destruct op as [c newId type price now|now ids]; simpl in Hstep.
  - unfold addMessage in Hstep.
    destruct (queues s !! c); [|done]. simpl in Hstep.
    injection Hstep as <-. simpl. by rewrite take_ge.
  - injection Hstep as <-. simpl. by apply tick_logs.
Qed.

Lemma run_logs ops s s' :
  run ops s = Normal s' →
  (length (logs s) ≤ 50)%nat →
  logs s' = take 50 (produced ops s ++ logs s).
Proof.
  revert s. induction ops as [|op ops IH]; intros s Hrun Hlen.
  - injection Hrun as <-. simpl. by rewrite take_ge.
  - simpl in Hrun. destruct (perform op s) as [s1|e] eqn:Hstep; [|done].
    simpl in Hrun.
    pose proof (perform_logs op s s1 Hstep Hlen) as Hlogs1.
    simpl in Hlogs1. rewrite Hstep in Hlogs1. simpl in Hlogs1.
    rewrite (IH s1 Hrun); [|rewrite Hlogs1, length_take; lia].
    simpl. rewrite Hstep, Hlogs1, take_app_take. by rewrite <- app_assoc.
Qed.

(** Every record of a tick carries the time of the tick. *)
Lemma coreLoop_processedAt now rate ids n L r :
  r ∈ processedItems (coreLoop now rate ids n L) →
  r ∈ processedItems L ∨ processedAt r = now.
Proof.
  induction n as [|n IH]; [by left|].
  rewrite coreLoop_S. intros Hr.
  destruct (coreStep_cases (coreLoop now rate ids n L) n)
    as [Hidle|(c & msg & remaining & Htarget & Hqueue)].
  - destruct (coreStep_idle now rate ids _ n Hidle) as (_ & Hitems & _).
    rewrite Hitems in Hr. by apply IH.
  - destruct (coreStep_serve now rate ids _ n c msg remaining Htarget Hqueue)
      as (_ & Hitems & _).
    rewrite Hitems, elem_of_app, list_elem_of_singleton in Hr.
    destruct Hr as [Hold| ->]; [by apply IH|by right].
Qed.

Lemma tickBatch_processedAt now ids s r :
  r ∈ tickBatch now ids s → processedAt r = now.
Proof.
  intros Hr. apply coreLoop_processedAt in Hr as [Hnil|Hnow]; [|done].
  by apply elem_of_nil in Hnil.
Qed.

Lemma same_time_newerFirst now (l : list ProcessedLog) :
  (∀ r, r ∈ l → processedAt r = now) → StronglySorted newerFirst l.
Proof.
  induction l as [|r l IH]; intros Hsame; constructor.
  - apply IH. intros r' Hr'. apply Hsame. by right.
  - apply Forall_forall. intros r' Hr'. unfold newerFirst.
    rewrite (Hsame r), (Hsame r'); [done|by right|by left].
Qed.

Lemma produced_processedAt ops s r :
  r ∈ produced ops s → processedAt r ∈ tickTimes ops.
Proof.
  revert s. induction ops as [|op ops IH]; intros s; simpl.
  - intros Hr. by apply elem_of_nil in Hr.
  - destruct op as [c newId type price time|now ids].
    + destruct (perform _ s) as [s1|e]; rewrite ?app_nil_r.
      * apply IH.
      * intros Hr. by apply elem_of_nil in Hr.
    + simpl. rewrite elem_of_app. intros [Hrest|Hbatch].
      * right. by apply (IH _ Hrest).
      * rewrite (tickBatch_processedAt _ _ _ _ Hbatch). left.
Qed.

(** With a clock that does not go back, the records of a run are listed from
    the newest to the oldest. *)
Lemma produced_newerFirst ops s :
  StronglySorted Z.le (tickTimes ops) →
  StronglySorted newerFirst (produced ops s).
Proof.
  revert s. induction ops as [|op ops IH]; intros s Hclock; simpl; [constructor|].
  destruct op as [c newId type price time|now ids]; simpl in *.
  - destruct (addMessage c newId type price time s) as [s1|e]; simpl;
      rewrite ?app_nil_r; [by apply IH|constructor].
  - apply StronglySorted_cons in Hclock as [Hlater Hclock].
    apply StronglySorted_app. split; [|split].
    + intros r1 r2 Hr1 Hr2. unfold newerFirst.
      rewrite (tickBatch_processedAt _ _ _ _ Hr2).
      apply produced_processedAt in Hr1.
      rewrite Forall_forall in Hlater. by apply Hlater.
    + by apply IH.
    + apply (same_time_newerFirst now). intros r.
      apply tickBatch_processedAt.
Qed.

(** C5. History bound and ordering of the record log: along any run from a
    freshly configured system the log is the list of all records produced so
    far, latest batch first, cut to its first 50 entries; so it holds
    min(50, number produced) entries, never more than 50, and once more than
    50 were produced it holds exactly the 50 latest.  One more tick puts its
    batch in front of that log and cuts the result to 50 again.  When the
    clock read by the ticks does not go back, the log runs from the newest
    record to the oldest. *)
Theorem log_bound_and_order (cores : nat) (ops : list Op) now ids :
  ∃ s, run ops (configured cores) = Normal s
       ∧ logs s = take 50 (produced ops (configured cores))
       ∧ length (logs s) = (50 `min` length (produced ops (configured cores)))%nat
       ∧ logs (tick now ids s) = take 50 (tickBatch now ids s ++ logs s)
       ∧ (length (logs (tick now ids s)) ≤ 50)%nat
       ∧ (StronglySorted Z.le (tickTimes ops) →
          StronglySorted newerFirst (logs s)).
Proof.
  destruct (run_balanced ops _ 0 (configured_balanced cores)) as (s & Hrun & _).
  exists s. split; [done|].
  assert (logs s = take 50 (produced ops (configured cores))) as Hlogs.
  { rewrite (run_logs ops _ s Hrun); [|simpl; lia].
    simpl. by rewrite app_nil_r. }
  assert (length (logs s) ≤ 50)%nat as Hlen
    by (rewrite Hlogs, length_take; lia).
  split; [done|]. split; [by rewrite Hlogs, length_take|].
  rewrite (tick_logs now ids s Hlen). split; [done|].
  split; [rewrite length_take; lia|].
  intros Hclock. rewrite Hlogs.
  apply (StronglySorted_app_1_l _ _ (drop 50 (produced ops (configured cores)))).
  rewrite take_drop. by apply produced_newerFirst.
Qed.

Lemma log_bound_and_order_witness :
  ∃ s, run [Inject APEX "p0o9i8u7y" BUY "512.25" 1000; Tick 2200 sampleId;
            Inject APEX "q1w2e3r4t" PING "100.00" 3000; Tick 3400 sampleId;
            Tick 4600 sampleId; Tick 5800 sampleId; Tick 7000 sampleId]
         (configured 1) = Normal s
       ∧ length (logs s) = 2%nat
       ∧ StronglySorted newerFirst (logs s).
Proof.
  destruct (log_bound_and_order 1
              [Inject APEX "p0o9i8u7y" BUY "512.25" 1000; Tick 2200 sampleId;
               Inject APEX "q1w2e3r4t" PING "100.00" 3000; Tick 3400 sampleId;
               Tick 4600 sampleId; Tick 5800 sampleId; Tick 7000 sampleId]
              8200 sampleId)
    as (s & Hrun & _ & Hlen & _ & _ & Hsorted).
  exists s. split; [exact Hrun|]. split; [exact Hlen|].
  apply Hsorted. simpl. repeat constructor; lia.
Defined.

(** ** Who takes which message *)

Section Dequeue.
Variables (now rate : Z) (ids : nat → string).

Local Abbreviation step := (coreStep now rate ids).
Local Abbreviation loop := (coreLoop now rate ids).

Lemma coreStep_paired L k :
  length (processedItems L) = length (ganttItems L) →
  length (processedItems (step L k)) = length (ganttItems (step L k)).
Proof.
  intros Hlen.
  destruct (coreStep_cases L k) as [Hidle|(c & msg & remaining & Htarget & Hqueue)].
  - by destruct (coreStep_idle now rate ids L k Hidle) as (_ & -> & ->).
  - destruct (coreStep_serve now rate ids L k c msg remaining Htarget Hqueue)
      as (_ & -> & ->).
    rewrite !length_app. simpl. lia.
Qed.

(** What has been taken from a queue, followed by what is left in it, does
    not change in an iteration. *)
Lemma coreStep_served c L k :
  length (processedItems L) = length (ganttItems L) →
  servedFrom c (step L k) ++ currentQueues (step L k) !!! c
    = servedFrom c L ++ currentQueues L !!! c.
Proof.
  intros Hlen. unfold servedFrom.
  destruct (coreStep_cases L k) as [Hidle|(c' & msg & remaining & Htarget & Hqueue)].
  - by destruct (coreStep_idle now rate ids L k Hidle) as (-> & -> & ->).
  - destruct (coreStep_serve now rate ids L k c' msg remaining Htarget Hqueue)
      as (-> & -> & ->).
    rewrite zip_with_app by done. simpl.
    rewrite filter_app, fmap_app, <- app_assoc. f_equal.
    destruct (decide (c' = c)) as [->|Hne].
    + rewrite filter_cons_True by done. simpl.
      by rewrite lookup_total_insert_eq, (lookup_total_correct _ _ _ Hqueue).
    + rewrite filter_cons_False by done. simpl.
      by rewrite lookup_total_insert_ne.
Qed.

Lemma coreLoop_paired n L :
  length (processedItems L) = length (ganttItems L) →
  length (processedItems (loop n L)) = length (ganttItems (loop n L)).
Proof.
  intros Hlen. induction n as [|n IH]; [done|].
  rewrite coreLoop_S. by apply coreStep_paired.
Qed.

Lemma coreLoop_served c n L :
  length (processedItems L) = length (ganttItems L) →
  servedFrom c (loop n L) ++ currentQueues (loop n L) !!! c
    = servedFrom c L ++ currentQueues L !!! c.
Proof.
  intros Hlen. induction n as [|n IH]; [done|].
  rewrite coreLoop_S, coreStep_served; [done|by apply coreLoop_paired].
Qed.

(** A queue no core points at in this iteration is left alone. *)
Lemma coreStep_other c L k :
  target (currentCoreStates L) k ≠ Some c →
  currentQueues (step L k) !! c = currentQueues L !! c.
Proof.
  intros Hother.
  destruct (coreStep_cases L k) as [Hidle|(c' & msg & remaining & Htarget & Hqueue)].
  - by destruct (coreStep_idle now rate ids L k Hidle) as (-> & _).
  - destruct (coreStep_serve now rate ids L k c' msg remaining Htarget Hqueue)
      as (-> & _).
    apply lookup_insert_ne. congruence.
Qed.

(** A drained queue stays drained for the rest of the tick. *)
Lemma coreStep_drained c L k :
  currentQueues L !! c = Some [] →
  currentQueues (step L k) !! c = Some [].
Proof.
  intros Hempty.
  destruct (coreStep_cases L k) as [Hidle|(c' & msg & remaining & Htarget & Hqueue)].
  - by destruct (coreStep_idle now rate ids L k Hidle) as (-> & _).
  - destruct (coreStep_serve now rate ids L k c' msg remaining Htarget Hqueue)
      as (-> & _).
    rewrite lookup_insert_ne; [done|]. congruence.
Qed.

(** The records of an iteration: the earlier ones, and at most one new
    record, which carries the number of the core. *)
Lemma coreStep_records L k r :
  r ∈ processedItems (step L k) →
  r ∈ processedItems L
  ∨ ∃ c msg remaining,
      target (currentCoreStates L) k = Some c
      ∧ currentQueues L !! c = Some (msg :: remaining)
      ∧ r = recordOf now k msg.
Proof.
  destruct (coreStep_cases L k) as [Hidle|(c & msg & remaining & Htarget & Hqueue)].
  - destruct (coreStep_idle now rate ids L k Hidle) as (_ & -> & _). by left.
  - destruct (coreStep_serve now rate ids L k c msg remaining Htarget Hqueue)
      as (_ & -> & _).
    rewrite elem_of_app, list_elem_of_singleton. intros [Hold| ->]; [by left|].
    right. by exists c, msg, remaining.
Qed.

Lemma coreStep_records_kept L k r :
  r ∈ processedItems L → r ∈ processedItems (step L k).
Proof.
  intros Hold.
  destruct (coreStep_cases L k) as [Hidle|(c & msg & remaining & Htarget & Hqueue)].
  - by destruct (coreStep_idle now rate ids L k Hidle) as (_ & -> & _).
  - destruct (coreStep_serve now rate ids L k c msg remaining Htarget Hqueue)
      as (_ & -> & _).
    apply elem_of_app. by left.
Qed.

(** The records of the loop come in increasing order of core number, at most
    one for each core. *)
Lemma coreLoop_core_order n L :
  processedItems L = [] →
  StronglySorted lt (p_coreId <$> processedItems (loop n L))
  ∧ ∀ r, r ∈ processedItems (loop n L) → (p_coreId r < n)%nat.
Proof.
  intros Hfresh. induction n as [|n [IHsorted IHbound]].
  - rewrite coreLoop_0, Hfresh. split; [constructor|].
    intros r Hr. by apply elem_of_nil in Hr.
  - rewrite coreLoop_S.
    destruct (coreStep_cases (loop n L) n)
      as [Hidle|(c & msg & remaining & Htarget & Hqueue)].
    + destruct (coreStep_idle now rate ids _ n Hidle) as (_ & -> & _).
      split; [done|]. intros r Hr. specialize (IHbound r Hr). lia.
    + destruct (coreStep_serve now rate ids _ n c msg remaining Htarget Hqueue)
        as (_ & -> & _).
      split.
      * rewrite fmap_app. apply StronglySorted_app. split; [|split].
        -- intros k1 k2 Hk1 Hk2. apply list_elem_of_fmap in Hk1 as (r & -> & Hr).
           apply list_elem_of_singleton in Hk2 as ->. simpl. by apply IHbound.
        -- done.
        -- repeat constructor.
      * intros r. rewrite elem_of_app, list_elem_of_singleton.
        intros [Hr| ->]; [specialize (IHbound r Hr); lia|simpl; lia].
Qed.

End Dequeue.

(** ** Two cores on one queue *)

Section Collision.
Variables (now rate : Z) (ids : nat → string).
Variables (L0 : Snapshot) (i j : nat) (c : ClientId) (m : Message).
Hypothesis Hij : (i < j)%nat.
Hypothesis Hfirst : target (currentCoreStates L0) i = Some c.
Hypothesis Hsecond : target (currentCoreStates L0) j = Some c.
Hypothesis Hqueue : currentQueues L0 !! c = Some [m].
Hypothesis Hlowest : ∀ k, (k < i)%nat → target (currentCoreStates L0) k ≠ Some c.
Hypothesis Hfresh : processedItems L0 = [].

Local Abbreviation loop := (coreLoop now rate ids).

(** The state of the loop after [n] iterations: before core [i] the queue
    still holds [m]; from core [i] on it is drained and the record of core
    [i] is in the batch; no record carries the number [j]. *)
Lemma collision_loop n :
  (∀ r, r ∈ processedItems (loop n L0) → (p_coreId r < n)%nat ∧ p_coreId r ≠ j)
  ∧ ((n ≤ i)%nat → currentQueues (loop n L0) !! c = Some [m])
  ∧ ((i < n)%nat →
       currentQueues (loop n L0) !! c = Some []
       ∧ recordOf now i m ∈ processedItems (loop n L0)).
Proof.
  induction n as [|n (IHrec & IHbefore & IHafter)].
  - rewrite coreLoop_0, Hfresh. split; [intros r Hr; by apply elem_of_nil in Hr|].
    split; [done|lia].
  - rewrite coreLoop_S.
    pose proof (target_later now rate ids n L0 n (le_n _)) as Htarget.
    split; [|split].
    + intros r Hr. apply coreStep_records in Hr
        as [Hold|(c' & msg & remaining & Hc' & Hq' & ->)].
      * destruct (IHrec r Hold). split; [lia|done].
      * simpl. split; [lia|]. intros ->.
        rewrite Htarget, Hsecond in Hc'. injection Hc' as <-.
        destruct IHafter as [Hdrained _]; [done|]. congruence.
    + intros Hn. rewrite coreStep_other; [apply IHbefore; lia|].
      rewrite Htarget. apply Hlowest. lia.
    + intros Hn. destruct (decide (n = i)) as [->|Hne].
      * rewrite <- Htarget in Hfirst.
        destruct (coreStep_serve now rate ids (loop i L0) i c m []
                    Hfirst (IHbefore (le_n _))) as (-> & -> & _).
        split; [apply lookup_insert_eq|].
        apply elem_of_app. right. by apply list_elem_of_singleton.
      * destruct IHafter as [Hdrained Hrecord]; [lia|].
        split; [by apply coreStep_drained|by apply coreStep_records_kept].
Qed.

End Collision.

(** C2. Multi-core collision determinism: the cores of a tick are served in
    increasing order on one shared copy of the queues, so the records of the
    batch come in increasing order of core number, at most one for each core.
    When cores [i < j] point at the same client, [i] being the
    lowest-numbered core that points at it, and the queue of that client
    holds the single message [m], then the batch of the tick holds the record
    of [m] made by core [i], no record of the batch carries the core number
    [j], and the queue is empty afterwards.  No message is taken twice: for
    every client, the messages taken from its queue in this tick followed by
    the queue left behind are the queue the tick started with. *)
Theorem collision_determinism now ids s i j c m :
  (i < j)%nat →
  (j < cpuCount s)%nat →
  target (coreStatesRef s) i = Some c →
  target (coreStatesRef s) j = Some c →
  queuesRef s !! c = Some [m] →
  (∀ k, (k < i)%nat → target (coreStatesRef s) k ≠ Some c) →
  recordOf now i m ∈ tickBatch now ids s
  ∧ (∀ r, r ∈ tickBatch now ids s → p_coreId r ≠ j)
  ∧ queues (tick now ids s) !! c = Some []
  ∧ StronglySorted lt (p_coreId <$> tickBatch now ids s)
  ∧ (∀ c', servedFrom c' (tickLoop now ids s) ++ queues (tick now ids s) !!! c'
           = queuesRef s !!! c').
Proof.
  intros Hij Hj Hfirst Hsecond Hqueue Hlowest.
  destruct (collision_loop now (tickRate s) ids (snapshot s) i j c m
              Hij Hfirst Hsecond Hqueue Hlowest eq_refl (cpuCount s))
    as (Hrec & _ & Hafter).
  destruct Hafter as [Hdrained Hrecord]; [lia|].
  split; [exact Hrecord|]. split; [intros r Hr; by apply (Hrec r)|].
  split; [exact Hdrained|].
  split; [by apply coreLoop_core_order|].
  intros c'. exact (coreLoop_served now (tickRate s) ids c' (cpuCount s)
                      (snapshot s) eq_refl).
Qed.

(** ** A single core going round *)

(** A tick of a one-core system whose core finds a message. *)
Lemma single_core_tick now ids s k c msg remaining :
  cpuCount s = 1%nat →
  coreStatesRef s = [ {| clientIndex := k |} ] →
  CLIENTS !! k = Some c →
  queuesRef s !! c = Some (msg :: remaining) →
  tickBatch now ids s = [recordOf now 0 msg]
  ∧ queues (tick now ids s) = <[c := remaining]> (queuesRef s)
  ∧ coreStates (tick now ids s) = [ {| clientIndex := (k + 1) mod 4 |} ].
Proof.
  intros Hcpu Hcore Hclient Hqueue.
  unfold tickBatch, tick, tickLoop, coreLoop. rewrite Hcpu. simpl.
  unfold coreStep, snapshot. simpl. rewrite Hcore. simpl.
  by rewrite Hclient, Hqueue.
Qed.

(** C7. Round-robin fairness: a single core whose rotation index is 0, with a
    message waiting in every client queue, serves each of the four clients
    exactly once in four consecutive ticks: the four ticks produce one record
    each, for the heads of the queues of APEX, NOVA, ZEUS and FLUX in that
    order, every queue has lost exactly its head, and the rotation index is
    back at 0. *)
Theorem round_robin_fairness s mA rA mN rN mZ rZ mF rF t1 g1 t2 g2 t3 g3 t4 g4 :
  cpuCount s = 1%nat →
  coreStatesRef s = [ {| clientIndex := 0 |} ] →
  queuesRef s !! APEX = Some (mA :: rA) →
  queuesRef s !! NOVA = Some (mN :: rN) →
  queuesRef s !! ZEUS = Some (mZ :: rZ) →
  queuesRef s !! FLUX = Some (mF :: rF) →
  ∃ s', run [Tick t1 g1; Tick t2 g2; Tick t3 g3; Tick t4 g4] s = Normal s'
        ∧ produced [Tick t1 g1; Tick t2 g2; Tick t3 g3; Tick t4 g4] s
          = [recordOf t4 0 mF; recordOf t3 0 mZ; recordOf t2 0 mN; recordOf t1 0 mA]
        ∧ queues s' !! APEX = Some rA
        ∧ queues s' !! NOVA = Some rN
        ∧ queues s' !! ZEUS = Some rZ
        ∧ queues s' !! FLUX = Some rF
        ∧ coreStates s' = [ {| clientIndex := 0 |} ].
Proof.
  intros Hcpu Hcore HA HN HZ HF.
  destruct (single_core_tick t1 g1 s 0 APEX mA rA Hcpu Hcore eq_refl HA)
    as (Hb1 & Hq1 & Hc1).
  set (s1 := tick t1 g1 s) in *.
  assert (queuesRef s1 !! NOVA = Some (mN :: rN)) as HN1.
  { change (queuesRef s1) with (queues s1). by rewrite Hq1, lookup_insert_ne. }
  destruct (single_core_tick t2 g2 s1 1 NOVA mN rN Hcpu Hc1 eq_refl HN1)
    as (Hb2 & Hq2 & Hc2).
  set (s2 := tick t2 g2 s1) in *.
  assert (queuesRef s2 !! ZEUS = Some (mZ :: rZ)) as HZ2.
  { change (queuesRef s2) with (queues s2). rewrite Hq2, lookup_insert_ne by done.
    change (queuesRef s1) with (queues s1). by rewrite Hq1, lookup_insert_ne. }
  destruct (single_core_tick t3 g3 s2 2 ZEUS mZ rZ Hcpu Hc2 eq_refl HZ2)
    as (Hb3 & Hq3 & Hc3).
  set (s3 := tick t3 g3 s2) in *.
  assert (queuesRef s3 !! FLUX = Some (mF :: rF)) as HF3.
  { change (queuesRef s3) with (queues s3). rewrite Hq3, lookup_insert_ne by done.
    change (queuesRef s2) with (queues s2). rewrite Hq2, lookup_insert_ne by done.
    change (queuesRef s1) with (queues s1). by rewrite Hq1, lookup_insert_ne. }
  destruct (single_core_tick t4 g4 s3 3 FLUX mF rF Hcpu Hc3 eq_refl HF3)
    as (Hb4 & Hq4 & Hc4).
  set (s4 := tick t4 g4 s3) in *.
  assert (queues s4 =
            <[FLUX := rF]> (<[ZEUS := rZ]> (<[NOVA := rN]> (<[APEX := rA]> (queuesRef s)))))
    as Hqueues.
  { rewrite Hq4. change (queuesRef s3) with (queues s3). rewrite Hq3.
    change (queuesRef s2) with (queues s2). rewrite Hq2.
    change (queuesRef s1) with (queues s1). by rewrite Hq1. }
  exists s4. split; [|split].
  - simpl. fold s1. rewrite (syncRefs_id s1) by apply tick_synced.
    fold s2. rewrite (syncRefs_id s2) by apply tick_synced.
    fold s3. rewrite (syncRefs_id s3) by apply tick_synced.
    fold s4. by rewrite (syncRefs_id s4) by apply tick_synced.
  - simpl. fold s1. rewrite (syncRefs_id s1) by apply tick_synced.
    fold s2. rewrite (syncRefs_id s2) by apply tick_synced.
    fold s3. rewrite (syncRefs_id s3) by apply tick_synced.
    by rewrite Hb1, Hb2, Hb3, Hb4.
  - rewrite Hqueues. repeat split; [by simplify_map_eq..|exact Hc4].
Qed.

(** ** Configuration *)

Lemma initialStates_lookup cores i :
  (i < cores)%nat →
  initialStates cores !! i = Some {| clientIndex := i mod 4 |}.
Proof.
  intros Hi. unfold initialStates.
  by rewrite list_lookup_fmap, lookup_seq_lt.
Qed.

Lemma initialStates_length cores : length (initialStates cores) = cores.
Proof. unfold initialStates. by rewrite length_fmap, length_seq. Qed.

(** C9. Two-core example: [initializeSystem(2)] gives core 0 the rotation
    index 0 mod 4 and core 1 the index 1 mod 4.  After an injection for APEX,
    an injection for NOVA and one tick, the tick has produced exactly two
    records, core 0 for the APEX message followed by core 1 for the NOVA
    message, [totalProcessed] is 2, and both queues are empty. *)
Theorem two_core_example idA typeA priceA timeA idB typeB priceB timeB now ids :
  coreStates (configured 2)
    = [ {| clientIndex := 0 mod 4 |}; {| clientIndex := 1 mod 4 |} ]
  ∧ ∃ s,
      run [Inject APEX idA typeA priceA timeA;
           Inject NOVA idB typeB priceB timeB;
           Tick now ids] (configured 2) = Normal s
      ∧ produced [Inject APEX idA typeA priceA timeA;
                  Inject NOVA idB typeB priceB timeB;
                  Tick now ids] (configured 2)
        = [ recordOf now 0
              (mkMessage idA APEX (MsgType_text typeA +:+ " @ " +:+ priceA)
                 timeA typeA);
            recordOf now 1
              (mkMessage idB NOVA (MsgType_text typeB +:+ " @ " +:+ priceB)
                 timeB typeB) ]
      ∧ logs s = produced [Inject APEX idA typeA priceA timeA;
                           Inject NOVA idB typeB priceB timeB;
                           Tick now ids] (configured 2)
      ∧ totalProcessed (metrics s) = 2
      ∧ queues s !! APEX = Some []
      ∧ queues s !! NOVA = Some []
      ∧ queueTotal (queues s) = 0%nat.
Proof.
  split; [reflexivity|].
  eexists. split; [reflexivity|]. repeat split.
Qed.

(** ** Events and the intervals *)

(** While its interval is running, a timer event is the callback followed by
    the render. *)
Lemma dispatch_scheduler_running now ids s :
  schedulerRunning s = true →
  dispatch (SchedulerTimer now ids) s = perform (Tick now ids) s.
Proof. intros Hrun. unfold dispatch. simpl. by rewrite Hrun. Qed.

Lemma dispatch_injector_running c newId type price now s :
  injectorRunning s = true →
  dispatch (InjectionTimer c newId type price now) s
    = perform (Inject c newId type price now) s.
Proof. intros Hrun. unfold dispatch. simpl. by rewrite Hrun. Qed.

Lemma twoCoresTicked_reachable :
  play [SelectCores 2; ToggleProcessing; SchedulerTimer 2200 sampleId] initialState
    = Normal twoCoresTicked.
Proof. reflexivity. Qed.

(** ** Reset *)

(** The rotation indices survive a reset: after [initializeSystem(2)], one
    tick and a reset, the cores are at positions 1 and 2, which is neither
    the initial content of [coreStates] nor what [initializeSystem(2)] sets. *)
Lemma reset_keeps_rotation :
  coreStates (syncRefs (resetSystem twoCoresTicked))
    = [ {| clientIndex := 1 |}; {| clientIndex := 2 |} ]
  ∧ coreStates (syncRefs (resetSystem twoCoresTicked)) ≠ coreStates initialState
  ∧ coreStates (syncRefs (resetSystem twoCoresTicked)) ≠ initialStates 2.
Proof. repeat split; by intros [=]. Qed.

(** C6 (amended). Reset: after [resetSystem] and its render, in any state,
    the four client queues are empty (in the state cell and in the ref), both
    history logs are empty, the metrics are zeroed, processing and automatic
    injection are off and the component is in configuration mode.  The
    rotation indices and the core count are left as they were; they are set
    by the [initializeSystem] that follows, after which the state is the one
    of a freshly configured system with the tick rate that was selected. *)
Theorem reset_clears_all_but_rotation s :
  ∃ r, dispatch PowerButton s = Normal r
       ∧ (∀ c, queues r !! c = Some [])
       ∧ (∀ c, queuesRef r !! c = Some [])
       ∧ logs r = []
       ∧ ganttHistory r = []
       ∧ metrics r = zeroMetrics
       ∧ isProcessing r = false
       ∧ autoInject r = false
       ∧ configMode r = true
       ∧ coreStates r = coreStates s
       ∧ cpuCount r = cpuCount s
       ∧ (∀ cores, syncRefs (initializeSystem cores r)
                   = setTickRate (tickRate s) (configured cores)).
Proof.
  eexists. split; [reflexivity|]. simpl.
  split; [by intros []|]. split; [by intros []|]. done.
Qed.

(** ** Before configuration *)

(** On a newly mounted component the scheduler timer and the injection timer
    complete normally and leave the state as it is. *)
Lemma timers_before_configuration_do_nothing :
  dispatch (SchedulerTimer 2200 sampleId) initialState = Normal initialState
  ∧ dispatch (InjectionTimer APEX "p0o9i8u7y" BUY "512.25" 1000) initialState
    = Normal initialState
  ∧ dispatch (SchedulerTimer 2200 sampleId)
      (setIsProcessing true (setAutoInject true initialState))
    ≠ Throw TypeError
  ∧ dispatch (InjectionTimer APEX "p0o9i8u7y" BUY "512.25" 1000)
      (setIsProcessing true (setAutoInject true initialState))
    ≠ Throw TypeError.
Proof. repeat split; done. Qed.

(** C8 (amended). Before configuration: while [configMode] is set, neither
    interval is running; a scheduler tick or an injection completes normally,
    raises no error and changes no state. *)
Theorem unconfigured_timers_are_silent s now ids c newId type price time :
  synced s →
  configMode s = true →
  dispatch (SchedulerTimer now ids) s = Normal s
  ∧ dispatch (InjectionTimer c newId type price time) s = Normal s.
Proof.
  intros Hsync Hconfig. unfold dispatch, handle, schedulerRunning, injectorRunning.
  rewrite Hconfig, !andb_false_r. simpl. by rewrite syncRefs_id.
Qed.

Lemma unconfigured_timers_are_silent_witness :
  dispatch (SchedulerTimer 2200 sampleId) initialState = Normal initialState
  ∧ dispatch (InjectionTimer NOVA "p0o9i8u7y" SELL "99.10" 1000) initialState
    = Normal initialState.
Proof.
  apply (unconfigured_timers_are_silent initialState 2200 sampleId NOVA
           "p0o9i8u7y" SELL "99.10" 1000).
  - split; reflexivity.
  - reflexivity.
Defined.

(** ** Instances of the conditional statements *)

Lemma collision_determinism_witness :
  recordOf 2200 0 (sampleMessage APEX) ∈ tickBatch 2200 sampleId fiveCores
  ∧ (∀ r, r ∈ tickBatch 2200 sampleId fiveCores → p_coreId r ≠ 4%nat)
  ∧ queues (tick 2200 sampleId fiveCores) !! APEX = Some []
  ∧ StronglySorted lt (p_coreId <$> tickBatch 2200 sampleId fiveCores)
  ∧ (∀ c', servedFrom c' (tickLoop 2200 sampleId fiveCores)
             ++ queues (tick 2200 sampleId fiveCores) !!! c'
           = queuesRef fiveCores !!! c').
Proof.
  apply (collision_determinism 2200 sampleId fiveCores 0 4 APEX (sampleMessage APEX)).
  - lia.
  - simpl. lia.
  - reflexivity.
  - reflexivity.
  - reflexivity.
  - intros k Hk. lia.
Defined.

Lemma metrics_exactness_witness :
  totalProcessed (metrics (tick 2200 sampleId oneWaiting)) = 0 + 1
  ∧ avgLatency (metrics (tick 2200 sampleId oneWaiting)) = (0 * 0 + 1200) `div` (0 + 1)
  ∧ updateMetricsDouble (tickBatch 2200 sampleId oneWaiting) (metrics oneWaiting)
    = (toDouble (0 + 1), toDouble ((0 * 0 + 1200) `div` (0 + 1))).
Proof.
  assert (0 ≤ totalProcessed (metrics oneWaiting)) as Htotal by (simpl; lia).
  assert (exactBatch (tickBatch 2200 sampleId oneWaiting) (metrics oneWaiting))
    as Hexact.
  { assert (tickBatch 2200 sampleId oneWaiting
            = [recordOf 2200 0 (sampleMessage APEX)]) as -> by reflexivity.
    unfold exactBatch, safeInteger, MAX_SAFE_INTEGER. simpl.
    split_and!; try lia; repeat (constructor; [simpl; lia|]); constructor. }
  destruct (metrics_exactness 2200 sampleId oneWaiting Htotal) as [Hbatch _].
  destruct Hbatch as (Htot & Havg & _); [discriminate|exact Hexact|].
  split; [exact Htot|]. split; [exact Havg|reflexivity].
Defined.

Lemma round_robin_fairness_witness :
  ∃ s', run [Tick 1 sampleId; Tick 2 sampleId; Tick 3 sampleId; Tick 4 sampleId]
          allWaiting = Normal s'
        ∧ produced [Tick 1 sampleId; Tick 2 sampleId; Tick 3 sampleId; Tick 4 sampleId]
            allWaiting
          = [recordOf 4 0 (sampleMessage FLUX); recordOf 3 0 (sampleMessage ZEUS);
             recordOf 2 0 (sampleMessage NOVA); recordOf 1 0 (sampleMessage APEX)]
        ∧ queues s' !! APEX = Some []
        ∧ queues s' !! NOVA = Some []
        ∧ queues s' !! ZEUS = Some []
        ∧ queues s' !! FLUX = Some []
        ∧ coreStates s' = [ {| clientIndex := 0 |} ].
Proof.
  apply (round_robin_fairness allWaiting
           (sampleMessage APEX) [] (sampleMessage NOVA) []
           (sampleMessage ZEUS) [] (sampleMessage FLUX) []
           1 sampleId 2 sampleId 3 sampleId 4 sampleId); reflexivity.
Defined.

(** ** States the events can lead to *)

Lemma rotated_0 cores : rotated 0 cores = initialStates cores.
Proof.
  unfold rotated, initialStates. apply list_fmap_ext. intros _ i _.
  by rewrite Nat.add_0_r.
Qed.

Lemma rotated_advance t cores : advance <$> rotated t cores = rotated (S t) cores.
Proof.
  unfold rotated. rewrite <- list_fmap_compose. apply list_fmap_ext.
  intros _ i _. unfold advance, compose. cbn [clientIndex]. f_equal.
  rewrite Nat.Div0.add_mod_idemp_l. f_equal. lia.
Qed.

Lemma rotated_length t cores : length (rotated t cores) = cores.
Proof. unfold rotated. by rewrite length_fmap, length_seq. Qed.

Lemma sliceLast_length {A} n (l : list A) : (length (sliceLast n l) ≤ n)%nat.
Proof. unfold sliceLast. rewrite length_drop. lia. Qed.

Lemma initialState_wellFormed : wellFormed initialState.
Proof.
  split; [by split|]. split; [apply allQueues_emptyQueues|].
  repeat split; simpl; try lia. by exists 0%nat.
Qed.

Lemma tick_wellFormed now ids s : wellFormed s → wellFormed (tick now ids s).
Proof.
  intros ([Hq Hc] & Hall & Hlogs & Hgantt & Htotal & Hcpu & t & Hrot).
  split; [apply tick_synced|]. split; [apply tick_allQueues; by rewrite Hq|].
  split; [|split; [|split; [|split]]].
  - unfold tick. simpl. case_bool_decide; [rewrite length_take; lia|done].
  - unfold tick. simpl. case_bool_decide; [apply sliceLast_length|done].
  - rewrite tick_metrics. case_bool_decide; [simpl; lia|done].
  - done.
  - exists (S t). rewrite tick_coreStates, Hc, Hrot.
    rewrite take_ge, drop_ge, app_nil_r by (rewrite rotated_length; lia).
    apply rotated_advance.
Qed.

Lemma dispatch_wellFormed ev s :
  wellFormed s → ∃ s', dispatch ev s = Normal s' ∧ wellFormed s'.
Proof.
  intros Hwf.
  pose proof Hwf as ([Hq Hc] & Hall & Hlogs & Hgantt & Htotal & Hcpu & t & Hrot).
  unfold dispatch.
  destruct ev as [cores| | | |ms|c newId type price now|now ids]; simpl.
  - case_match eqn:Hguard; simpl; (eexists; split; [done|]).
    + apply andb_prop in Hguard as [_ Hcores].
      apply bool_decide_eq_true in Hcores.
      repeat split; simpl; try done.
      * set_unfold. lia.
      * exists 0%nat. symmetry. apply rotated_0.
    + by rewrite syncRefs_id.
  - eexists; split; [done|]. split; [by split|].
    split; [apply allQueues_emptyQueues|]. repeat split; simpl; try lia. by exists t.
  - eexists; split; [done|]. repeat split; simpl; try done. by exists t.
  - eexists; split; [done|]. repeat split; simpl; try done. by exists t.
  - eexists; split; [done|]. repeat split; simpl; try done. by exists t.
  - case_match; simpl; [|rewrite syncRefs_id by done; by eexists].
    unfold addMessage. destruct (Hall c) as [old ->]. simpl.
    eexists; split; [done|]. repeat split; simpl; try done.
    + by apply allQueues_insert.
    + by exists t.
  - case_match; simpl; [|rewrite syncRefs_id by done; by eexists].
    eexists; split; [done|].
    rewrite syncRefs_id by apply tick_synced. by apply tick_wellFormed.
Qed.

(** No sequence of events throws, and [wellFormed] holds all along. *)
Lemma play_wellFormed evs s :
  wellFormed s → ∃ s', play evs s = Normal s' ∧ wellFormed s'.
Proof.
  revert s. induction evs as [|ev evs IH]; intros s Hwf; [by exists s|].
  destruct (dispatch_wellFormed ev s Hwf) as (s1 & Hstep & Hwf1).
  destruct (IH s1 Hwf1) as (s' & Hplay & Hwf').
  exists s'. split; [|done]. simpl. by rewrite Hstep.
Qed.

(** With the at most four cores the overlay offers, two cores never point at
    the same client. *)
Lemma wellFormed_no_collision s i j c :
  wellFormed s →
  (i < j)%nat → (j < cpuCount s)%nat →
  target (coreStatesRef s) i = Some c →
  target (coreStatesRef s) j ≠ Some c.
Proof.
  intros ([_ Hc] & _ & _ & _ & _ & Hcpu & t & Hrot) Hij Hj.
  rewrite Hc, Hrot. unfold target, rotated.
  rewrite !list_lookup_fmap, !lookup_seq_lt by lia.
  cbn [fmap option_fmap option_map mbind option_bind clientIndex].
  change (length CLIENTS) with 4%nat.
  intros Hi Hjc. rewrite <- Hi in Hjc. clear Hi.
  assert ((0 + i + t) `mod` 4 < 4)%nat as Hi4 by (apply Nat.mod_upper_bound; lia).
  assert ((0 + j + t) `mod` 4 < 4)%nat as Hj4 by (apply Nat.mod_upper_bound; lia).
  assert ((0 + i + t) `mod` 4 ≠ (0 + j + t) `mod` 4)%nat as Hne.
  { pose proof (Nat.div_mod_eq (0 + i + t) 4) as Hdi.
    pose proof (Nat.div_mod_eq (0 + j + t) 4) as Hdj.
    revert Hdi Hdj Hi4 Hj4.
    generalize ((0 + i + t) `mod` 4)%nat ((0 + j + t) `mod` 4)%nat
               ((0 + i + t) `div` 4)%nat ((0 + j + t) `div` 4)%nat.
    lia. }
  revert Hjc Hne Hi4 Hj4.
  generalize ((0 + i + t) `mod` 4)%nat ((0 + j + t) `mod` 4)%nat.
  intros [|[|[|[|a]]]] [|[|[|[|b]]]]; simpl; intros; done || lia.
Qed.

(** ** The refs between two renders *)

(** [queuesRef] is brought up to date by an effect, after the render that
    follows [addMessage].  The runs above let that render happen before the
    next callback.  A tick taken on the state in between starts from the
    queues of the previous render and writes them back over the state cell:
    the message is neither queued nor counted. *)
Remark tick_on_stale_ref :
  ∃ s1, addMessage APEX "p0o9i8u7y" BUY "512.25" 1000 (configured 1) = Normal s1
        ∧ queueLength (queues s1) APEX = 1%nat
        ∧ queueLength (queuesRef s1) APEX = 0%nat
        ∧ queueTotal (queues (tick 2200 sampleId s1)) = 0%nat
        ∧ totalProcessed (metrics (tick 2200 sampleId s1)) = 0.
Proof. eexists. split; [reflexivity|]. repeat split. Qed.

(** * Further properties of the scheduler *)

(** ** What a tick takes from a queue *)

Section Served.
Variables (now rate : Z) (ids : nat → string).

Local Abbreviation step := (coreStep now rate ids).
Local Abbreviation loop := (coreLoop now rate ids).

Lemma pointing_S c cs n :
  pointing c cs (S n) =
    (pointing c cs n + if decide (target cs n = Some c) then 1 else 0)%nat.
Proof.
  unfold pointing. rewrite seq_S, filter_app, length_app. f_equal.
  simpl. destruct (decide (target cs n = Some c)).
  - by rewrite filter_cons_True.
  - by rewrite filter_cons_False.
Qed.

Lemma servedFrom_idle c L k :
  (∀ c', target (currentCoreStates L) k = Some c' → currentQueues L !!! c' = []) →
  servedFrom c (step L k) = servedFrom c L.
Proof.
  intros Hidle. unfold servedFrom.
  by destruct (coreStep_idle now rate ids L k Hidle) as (_ & -> & ->).
Qed.

Lemma servedFrom_serve c L k c' msg remaining :
  length (processedItems L) = length (ganttItems L) →
  target (currentCoreStates L) k = Some c' →
  currentQueues L !! c' = Some (msg :: remaining) →
  servedFrom c (step L k) =
    servedFrom c L ++ if decide (c' = c) then [msg] else [].
Proof.
  intros Hlen Htarget Hqueue. unfold servedFrom.
  destruct (coreStep_serve now rate ids L k c' msg remaining Htarget Hqueue)
    as (_ & -> & ->).
  rewrite zip_with_app by done. simpl. rewrite filter_app, fmap_app. f_equal.
  destruct (decide (c' = c)).
  - by rewrite filter_cons_True.
  - by rewrite filter_cons_False.
Qed.

(** As many messages leave a queue as cores point at it, unless fewer are
    waiting. *)
Lemma coreLoop_served_count c n L :
  processedItems L = [] →
  ganttItems L = [] →
  length (servedFrom c (loop n L))
    = (pointing c (currentCoreStates L) n `min` length (currentQueues L !!! c))%nat.
Proof.
  intros Hitems Hgantt.
  assert (length (processedItems L) = length (ganttItems L)) as Hpaired
    by by rewrite Hitems, Hgantt.
  assert (servedFrom c L = []) as Hnone
    by (unfold servedFrom; by rewrite Hitems).
  induction n as [|n IH]; [by rewrite coreLoop_0, Hnone|].
  pose proof (coreLoop_served now rate ids c n L Hpaired) as Hsplit.
  rewrite Hnone in Hsplit. simpl in Hsplit.
  apply (f_equal length) in Hsplit. rewrite length_app in Hsplit.
  pose proof (target_later now rate ids n L n (le_n _)) as Hsame.
  rewrite coreLoop_S, pointing_S.
  destruct (coreStep_cases (loop n L) n)
    as [Hidle|(c' & msg & remaining & Htarget & Hqueue)].
  - rewrite servedFrom_idle by done.
    destruct (decide (target (currentCoreStates L) n = Some c)) as [Hc|Hc]; [|lia].
    rewrite <- Hsame in Hc. rewrite (Hidle c Hc) in Hsplit. simpl in Hsplit. lia.
  - rewrite (servedFrom_serve c _ n c' msg remaining)
      by (done || by apply coreLoop_paired).
    rewrite length_app. rewrite Hsame in Htarget.
    destruct (decide (c' = c)) as [->|Hne].
    + rewrite (lookup_total_correct _ _ _ Hqueue) in Hsplit. simpl in *.
      rewrite decide_True by done. lia.
    + rewrite decide_False by congruence. simpl. lia.
Qed.

(** A record of the loop: made by a core below [n], with the time of the
    tick, for a message of the queue that core pointed at. *)
Lemma coreLoop_record_origin n L r :
  processedItems L = [] →
  ganttItems L = [] →
  r ∈ processedItems (loop n L) →
  r = recordOf now (p_coreId r) (p_msg r)
  ∧ (p_coreId r < n)%nat
  ∧ ∃ c, target (currentCoreStates L) (p_coreId r) = Some c
         ∧ p_msg r ∈ currentQueues L !!! c.
Proof.
  intros Hitems Hgantt.
  assert (length (processedItems L) = length (ganttItems L)) as Hpaired
    by by rewrite Hitems, Hgantt.
  induction n as [|n IH].
  - rewrite coreLoop_0, Hitems. intros Hr. by apply elem_of_nil in Hr.
  - rewrite coreLoop_S. intros Hr.
    apply coreStep_records in Hr as [Hold|(c & msg & remaining & Htarget & Hqueue & ->)].
    + destruct (IH Hold) as (Hshape & Hcore & Horigin). split; [done|]. split; [lia|done].
    + split; [done|]. split; [simpl; lia|]. exists c. simpl.
      rewrite target_later in Htarget by done. split; [done|].
      pose proof (coreLoop_served now rate ids c n L Hpaired) as Hsplit.
      rewrite (lookup_total_correct _ _ _ Hqueue) in Hsplit.
      unfold servedFrom at 2 in Hsplit. rewrite Hitems in Hsplit.
      simpl in Hsplit. rewrite <- Hsplit.
      apply elem_of_app. right. by left.
Qed.

(** Record and block number [k] of a tick belong together. *)
Lemma coreLoop_blocks n L :
  processedItems L = [] →
  ganttItems L = [] →
  Forall2
    (λ r g, g = {| g_id := ids (p_coreId r);
                   g_clientId := g_clientId g;
                   startTime := now - rate;
                   endTime := now;
                   g_coreId := p_coreId r |}
            ∧ target (currentCoreStates L) (p_coreId r) = Some (g_clientId g))
    (processedItems (loop n L)) (ganttItems (loop n L)).
Proof.
  intros Hitems Hgantt. induction n as [|n IH].
  - rewrite coreLoop_0, Hitems, Hgantt. constructor.
  - rewrite coreLoop_S.
    destruct (coreStep_cases (loop n L) n)
      as [Hidle|(c & msg & remaining & Htarget & Hqueue)].
    + by destruct (coreStep_idle now rate ids _ n Hidle) as (_ & -> & ->).
    + destruct (coreStep_serve now rate ids _ n c msg remaining Htarget Hqueue)
        as (_ & -> & ->).
      apply Forall2_app; [done|]. constructor; [|constructor]. simpl.
      split; [done|]. by rewrite target_later in Htarget.
Qed.

End Served.

(** X1. A tick takes a front part of every queue: for each client, the
    messages taken in the tick, in the order they were taken, followed by the
    queue that is left, are the queue the tick started with; and their number
    is the number of cores below [cpuCount] that point at the client, or the
    length of the queue if that is smaller. *)
Theorem tick_takes_queue_front now ids s c :
  servedFrom c (tickLoop now ids s) ++ queues (tick now ids s) !!! c
    = queuesRef s !!! c
  ∧ length (servedFrom c (tickLoop now ids s))
    = (pointing c (coreStatesRef s) (cpuCount s)
         `min` length (queuesRef s !!! c))%nat.
Proof.
  split.
  - exact (coreLoop_served now (tickRate s) ids c (cpuCount s) (snapshot s) eq_refl).
  - exact (coreLoop_served_count now (tickRate s) ids c (cpuCount s) (snapshot s)
             eq_refl eq_refl).
Qed.

(** X2. Where a record comes from: every record of a tick carries the time of
    the tick as [processedAt] and that time minus the timestamp of its message
    as [latencyMs], was made by a core below [cpuCount], and its message was
    waiting in the queue that core pointed at when the tick began. *)
Theorem tick_record_origin now ids s r :
  r ∈ tickBatch now ids s →
  processedAt r = now
  ∧ latencyMs r = now - m_timestamp (p_msg r)
  ∧ (p_coreId r < cpuCount s)%nat
  ∧ ∃ c, target (coreStatesRef s) (p_coreId r) = Some c
         ∧ p_msg r ∈ queuesRef s !!! c.
Proof.
  intros Hr.
  destruct (coreLoop_record_origin now (tickRate s) ids (cpuCount s) (snapshot s) r
              eq_refl eq_refl Hr) as (Hshape & Hcore & Horigin).
  split; [by rewrite Hshape|]. split; [by rewrite Hshape|]. by split.
Qed.

Lemma tick_record_origin_witness :
  processedAt (recordOf 2200 0 (sampleMessage APEX)) = 2200
  ∧ latencyMs (recordOf 2200 0 (sampleMessage APEX))
    = 2200 - m_timestamp (p_msg (recordOf 2200 0 (sampleMessage APEX)))
  ∧ (p_coreId (recordOf 2200 0 (sampleMessage APEX)) < cpuCount oneWaiting)%nat
  ∧ ∃ c, target (coreStatesRef oneWaiting)
           (p_coreId (recordOf 2200 0 (sampleMessage APEX))) = Some c
         ∧ p_msg (recordOf 2200 0 (sampleMessage APEX)) ∈ queuesRef oneWaiting !!! c.
Proof.
  apply (tick_record_origin 2200 sampleId oneWaiting).
  apply list_elem_of_here.
Defined.

(** X3. Blocks and records of a tick come in pairs: there are as many blocks
    as records, and block number [k] carries the core number of record number
    [k], the id drawn for that core, the client that core pointed at, the time
    of the tick as [endTime] and that time minus [tickRate] as [startTime]. *)
Theorem tick_blocks_match_records now ids s :
  Forall2
    (λ r g, g_coreId g = p_coreId r
            ∧ g_id g = ids (p_coreId r)
            ∧ endTime g = now
            ∧ startTime g = now - tickRate s
            ∧ target (coreStatesRef s) (p_coreId r) = Some (g_clientId g))
    (tickBatch now ids s) (ganttItems (tickLoop now ids s)).
Proof.
  pose proof (coreLoop_blocks now (tickRate s) ids (cpuCount s) (snapshot s)
                eq_refl eq_refl) as Hblocks.
  eapply Forall2_impl; [exact Hblocks|].
  intros r g [Hg Htarget]. simpl in *. rewrite Hg. by simpl.
Qed.

(** ** The head of a queue *)

Section Head.
Variables (now rate : Z) (ids : nat → string).
Variables (L0 : Snapshot) (i : nat) (c : ClientId) (m : Message) (waiting : list Message).
Hypothesis Hpoints : target (currentCoreStates L0) i = Some c.
Hypothesis Hqueue : currentQueues L0 !! c = Some (m :: waiting).
Hypothesis Hlowest : ∀ k, (k < i)%nat → target (currentCoreStates L0) k ≠ Some c.

Lemma head_loop n :
  ((n ≤ i)%nat → currentQueues (coreLoop now rate ids n L0) !! c = Some (m :: waiting))
  ∧ ((i < n)%nat → recordOf now i m ∈ processedItems (coreLoop now rate ids n L0)).
Proof.
  induction n as [|n [IHbefore IHafter]]; [split; [done|lia]|].
  rewrite coreLoop_S.
  pose proof (target_later now rate ids n L0 n (le_n _)) as Htarget.
  split.
  - intros Hn. rewrite coreStep_other; [apply IHbefore; lia|].
    rewrite Htarget. apply Hlowest. lia.
  - intros Hn. destruct (decide (n = i)) as [->|Hne].
    + rewrite <- Htarget in Hpoints.
      destruct (coreStep_serve now rate ids _ i c m waiting Hpoints
                  (IHbefore (le_n _))) as (_ & -> & _).
      apply elem_of_app. right. by apply list_elem_of_singleton.
    + apply coreStep_records_kept. apply IHafter. lia.
Qed.

End Head.

(** X4. The head of a queue goes to the lowest core: when a message is at the
    head of the queue of a client and core [i], below [cpuCount], is the
    lowest-numbered core pointing at that client, the tick produces the
    record of that message made by core [i]. *)
Theorem head_served_by_lowest_core now ids s i c m waiting :
  (i < cpuCount s)%nat →
  target (coreStatesRef s) i = Some c →
  queuesRef s !! c = Some (m :: waiting) →
  (∀ k, (k < i)%nat → target (coreStatesRef s) k ≠ Some c) →
  recordOf now i m ∈ tickBatch now ids s.
Proof.
  intros Hi Hpoints Hqueue Hlowest.
  by apply (head_loop now (tickRate s) ids (snapshot s) i c m waiting
              Hpoints Hqueue Hlowest (cpuCount s)).
Qed.

Lemma head_served_by_lowest_core_witness :
  recordOf 2200 0 (sampleMessage APEX) ∈ tickBatch 2200 sampleId allWaiting.
Proof.
  apply (head_served_by_lowest_core 2200 sampleId allWaiting 0 APEX
           (sampleMessage APEX) []).
  - simpl. lia.
  - reflexivity.
  - reflexivity.
  - intros k Hk. lia.
Defined.

(** X5. From injection to record: once an injection for a client whose
    queue is empty has been rendered, so that the effect has copied [queues]
    into [queuesRef], the next tick takes the message when a core points at
    that client; the lowest such core takes it, and its record has the time
    between the injection and the tick as latency. *)
Theorem injected_message_is_served s i c newId type price time now ids :
  queues s !! c = Some [] →
  (i < cpuCount s)%nat →
  target (coreStates s) i = Some c →
  (∀ k, (k < i)%nat → target (coreStates s) k ≠ Some c) →
  ∃ s1 r,
    schedule [Callback (Inject c newId type price time); Render] s = Normal s1
    ∧ r ∈ tickBatch now ids s1
    ∧ p_msg r = mkMessage newId c (MsgType_text type +:+ " @ " +:+ price) time type
    ∧ p_coreId r = i
    ∧ latencyMs r = now - time.
Proof.
  intros Hempty Hi Hpoints Hlowest.
  simpl. unfold addMessage. rewrite Hempty. simpl.
  eexists. eexists (recordOf now i _). split; [done|]. split; [|done].
  refine (proj2 (head_loop now _ ids (snapshot _) i c _ [] _ _ _ _) Hi).
  - exact Hpoints.
  - simpl. apply lookup_insert_eq.
  - exact Hlowest.
Qed.

Lemma injected_message_is_served_witness :
  ∃ s1 r,
    schedule [Callback (Inject NOVA "q1w2e3r4t" PING "100.00" 3000); Render]
      (configured 2) = Normal s1
    ∧ r ∈ tickBatch 3400 sampleId s1
    ∧ p_msg r = mkMessage "q1w2e3r4t" NOVA (MsgType_text PING +:+ " @ " +:+ "100.00")
                  3000 PING
    ∧ p_coreId r = 1%nat
    ∧ latencyMs r = 3400 - 3000.
Proof.
  apply (injected_message_is_served (configured 2) 1 NOVA "q1w2e3r4t" PING
           "100.00" 3000 3400 sampleId).
  - reflexivity.
  - simpl. lia.
  - reflexivity.
  - intros k Hk. assert (k = 0%nat) as -> by lia. discriminate.
Defined.

(** ** The interval history *)

Lemma sliceLast_short {A} n (l : list A) : (length l ≤ n)%nat → sliceLast n l = l.
Proof. intros Hlen. unfold sliceLast. by replace (length l - n)%nat with 0%nat by lia. Qed.

Lemma sliceLast_app_sliceLast {A} n (a b : list A) :
  sliceLast n (sliceLast n a ++ b) = sliceLast n (a ++ b).
Proof.
  destruct (decide (length a ≤ n)%nat) as [Hle|Hgt];
    [by rewrite (sliceLast_short n a)|].
  unfold sliceLast. rewrite !length_app, length_drop.
  replace (length a - (length a - n) + length b - n)%nat with (length b) by lia.
  replace (length a + length b - n)%nat with ((length a - n) + length b)%nat by lia.
  rewrite <- drop_drop. f_equal.
  by rewrite drop_app_le by lia.
Qed.

Lemma tick_ganttHistory now ids s :
  (length (ganttHistory s) ≤ 100)%nat →
  ganttHistory (tick now ids s)
    = sliceLast 100 (ganttHistory s ++ ganttItems (tickLoop now ids s)).
Proof.
  intros Hlen. unfold tick. simpl.
  case_bool_decide as Hbatch; [done|].
  pose proof (coreLoop_paired now (tickRate s) ids (cpuCount s) (snapshot s) eq_refl)
    as Hpaired.
  fold (tickLoop now ids s) in Hpaired.
  destruct (ganttItems (tickLoop now ids s)); [|simpl in *; lia].
  by rewrite app_nil_r, sliceLast_short.
Qed.

Lemma run_ganttHistory ops s s' :
  run ops s = Normal s' →
  (length (ganttHistory s) ≤ 100)%nat →
  ganttHistory s' = sliceLast 100 (ganttHistory s ++ drawn ops s).
Proof.
  revert s. induction ops as [|op ops IH]; intros s Hrun Hlen.
  - injection Hrun as <-. simpl. by rewrite app_nil_r, sliceLast_short.
  - simpl in Hrun. destruct (perform op s) as [s1|e] eqn:Hstep; [|done].
    simpl in Hrun. simpl. rewrite Hstep.
    assert (ganttHistory s1
            = sliceLast 100
                (ganttHistory s ++
                   match op with
                   | Tick now ids => ganttItems (tickLoop now ids s)
                   | Inject _ _ _ _ _ => []
                   end)) as Hone.
    { destruct op as [c newId type price now|now ids]; simpl in Hstep.
      - unfold addMessage in Hstep. destruct (queues s !! c); [|done].
        injection Hstep as <-. simpl. by rewrite app_nil_r, sliceLast_short.
      - injection Hstep as <-. simpl. by apply tick_ganttHistory. }
    rewrite (IH s1 Hrun); [|rewrite Hone; apply sliceLast_length].
    by rewrite Hone, sliceLast_app_sliceLast, app_assoc.
Qed.

Lemma drawn_length ops s : length (drawn ops s) = length (produced ops s).
Proof.
  revert s. induction ops as [|op ops IH]; intros s; [done|]. simpl.
  assert (length match op with
                 | Tick now ids => ganttItems (tickLoop now ids s)
                 | Inject _ _ _ _ _ => []
                 end
          = length match op with
                   | Tick now ids => tickBatch now ids s
                   | Inject _ _ _ _ _ => []
                   end) as Hsame.
  { destruct op as [|now ids]; [done|]. symmetry.
    exact (coreLoop_paired now (tickRate s) ids (cpuCount s) (snapshot s) eq_refl). }
  destruct (perform op s) as [s1|e]; [|done].
  rewrite !length_app, IH. lia.
Qed.

(** X6. The interval history is a sliding window: along any run from a
    freshly configured system it consists of the last 100 of all blocks
    pushed so far, oldest first; it holds min(100, number pushed) blocks, and
    as many blocks have been pushed as records produced. *)
Theorem gantt_history_window (cores : nat) (ops : list Op) :
  ∃ s, run ops (configured cores) = Normal s
       ∧ ganttHistory s = sliceLast 100 (drawn ops (configured cores))
       ∧ length (ganttHistory s)
         = (100 `min` length (drawn ops (configured cores)))%nat
       ∧ length (drawn ops (configured cores))
         = length (produced ops (configured cores)).
Proof.
  destruct (run_balanced ops _ 0 (configured_balanced cores)) as (s & Hrun & _).
  exists s. split; [done|].
  assert (ganttHistory s = sliceLast 100 (drawn ops (configured cores))) as Hwindow
    by (rewrite (run_ganttHistory ops _ s Hrun); [done|simpl; lia]).
  split; [done|]. split; [|apply drawn_length].
  rewrite Hwindow. unfold sliceLast. rewrite length_drop. lia.
Qed.

(** ** The counter and the average *)

Lemma run_totalProcessed ops s s' :
  run ops s = Normal s' →
  totalProcessed (metrics s')
    = totalProcessed (metrics s) + Z.of_nat (length (produced ops s)).
Proof.
  revert s. induction ops as [|op ops IH]; intros s Hrun.
  - injection Hrun as <-. simpl. lia.
  - simpl in Hrun. destruct (perform op s) as [s1|e] eqn:Hstep; [|done].
    simpl in Hrun. simpl. rewrite Hstep, (IH s1 Hrun), length_app.
    destruct op as [c newId type price now|now ids]; simpl in Hstep.
    + unfold addMessage in Hstep. destruct (queues s !! c); [|done].
      injection Hstep as <-. simpl. lia.
    + injection Hstep as <-. simpl. fold (tickBatch now ids s).
      case_bool_decide as Hbatch; simpl; lia.
Qed.

(** X7. The counter counts the records: along any run from a freshly
    configured system [metrics.totalProcessed] is the number of records
    produced so far, whether or not the log still holds them. *)
Theorem total_counts_records (cores : nat) (ops : list Op) :
  ∃ s, run ops (configured cores) = Normal s
       ∧ totalProcessed (metrics s)
         = Z.of_nat (length (produced ops (configured cores))).
Proof.
  destruct (run_balanced ops _ 0 (configured_balanced cores)) as (s & Hrun & _).
  exists s. split; [done|]. by rewrite (run_totalProcessed ops _ s Hrun).
Qed.

Lemma latencySum_bounds lo hi items :
  (∀ r, r ∈ items → lo ≤ latencyMs r ≤ hi) →
  lo * Z.of_nat (length items) ≤ latencySum items ≤ hi * Z.of_nat (length items).
Proof.
  induction items as [|item items IH]; intros Hall; [simpl; lia|].
  destruct IH as [IHlo IHhi]; [intros r Hr; apply Hall; by right|].
  pose proof (Hall item (list_elem_of_here _ _)).
  simpl length. simpl latencySum. lia.
Qed.

(** The new average lies between any two bounds that hold of the old average
    (once something was counted) and of the latencies of the batch. *)
Lemma updateMetrics_range lo hi items prev :
  0 ≤ totalProcessed prev →
  (0 < totalProcessed prev → lo ≤ avgLatency prev ≤ hi) →
  (∀ r, r ∈ items → lo ≤ latencyMs r ≤ hi) →
  items ≠ [] →
  lo ≤ avgLatency (updateMetrics items prev) ≤ hi.
Proof.
  intros Htotal Hprev Hitems Hne.
  pose proof (latencySum_bounds lo hi items Hitems) as [Hlo Hhi].
  assert (0 < Z.of_nat (length items)) as Hlen
    by (destruct items; [done|simpl; lia]).
  unfold updateMetrics. simpl. rewrite foldl_latencySum, Z.add_0_l.
  set (n := Z.of_nat (length items)) in *.
  set (total := totalProcessed prev) in *.
  assert (lo * total ≤ avgLatency prev * total ≤ hi * total) as [Hplo Hphi].
  { destruct (decide (total = 0)) as [->|Hpos]; [lia|].
    destruct Hprev; [lia|]. split; apply Z.mul_le_mono_nonneg_r; lia. }
  split.
  - apply Z.div_le_lower_bound; lia.
  - apply Z.div_le_upper_bound; lia.
Qed.

(** X8. The average stays between the extremes: when every number the
    updater reads or computes for the batch of a tick is a safe integer (of
    magnitude below 2^53), and the old average (if anything was counted yet)
    and all latencies of the batch lie between [lo] and [hi], so does the new
    average; within the safe integers, the floor of the incremental formula
    never leaves the range of the latencies seen. *)
Theorem average_stays_in_range now ids s lo hi :
  0 ≤ totalProcessed (metrics s) →
  exactBatch (tickBatch now ids s) (metrics s) →
  (0 < totalProcessed (metrics s) → lo ≤ avgLatency (metrics s) ≤ hi) →
  (∀ r, r ∈ tickBatch now ids s → lo ≤ latencyMs r ≤ hi) →
  tickBatch now ids s ≠ [] →
  lo ≤ avgLatency (metrics (tick now ids s)) ≤ hi.
Proof.
  intros Htotal _ Hprev Hbatch Hne. rewrite tick_metrics.
  rewrite bool_decide_eq_true_2
    by (destruct (tickBatch now ids s); [done|simpl; lia]).
  by apply updateMetrics_range.
Qed.

Lemma average_stays_in_range_witness :
  1200 ≤ avgLatency (metrics (tick 2200 sampleId oneWaiting)) ≤ 1200.
Proof.
  apply (average_stays_in_range 2200 sampleId oneWaiting 1200 1200).
  - simpl. lia.
  - assert (tickBatch 2200 sampleId oneWaiting
            = [recordOf 2200 0 (sampleMessage APEX)]) as -> by reflexivity.
    unfold exactBatch, safeInteger, MAX_SAFE_INTEGER. simpl.
    split_and!; try lia; repeat (constructor; [simpl; lia|]); constructor.
  - simpl. lia.
  - intros r Hr. apply list_elem_of_singleton in Hr. subst r. simpl. lia.
  - discriminate.
Defined.

(** ** Latencies under a clock that does not go back *)

(** What the proof of the next statement carries along a run: the refs are
    in step, every queue exists, the counter and the average are not
    negative, no waiting message is younger than [T], and no logged latency
    is negative. *)
Lemma tick_keeps_latencies_nonneg now ids s T :
  synced s →
  allQueues (queues s) →
  0 ≤ totalProcessed (metrics s) →
  0 ≤ avgLatency (metrics s) →
  (∀ c m, m ∈ queues s !!! c → m_timestamp m ≤ T) →
  (∀ r, r ∈ logs s → 0 ≤ latencyMs r) →
  T ≤ now →
  0 ≤ totalProcessed (metrics (tick now ids s))
  ∧ 0 ≤ avgLatency (metrics (tick now ids s))
  ∧ (∀ c m, m ∈ queues (tick now ids s) !!! c → m_timestamp m ≤ now)
  ∧ (∀ r, r ∈ logs (tick now ids s) → 0 ≤ latencyMs r).
Proof.
  intros [Hq Hc] Hall Htotal Havg Hyoung Hlogs Hnow.
  assert (∀ r, r ∈ tickBatch now ids s → 0 ≤ latencyMs r) as Hbatch.
  { intros r Hr.
    destruct (coreLoop_record_origin now (tickRate s) ids (cpuCount s) (snapshot s) r
                eq_refl eq_refl Hr) as (-> & _ & c & _ & Hwaiting).
    simpl in *. rewrite Hq in Hwaiting. specialize (Hyoung c _ Hwaiting). lia. }
  split; [|split; [|split]].
  - rewrite tick_metrics. case_bool_decide; simpl; lia.
  - rewrite tick_metrics. case_bool_decide as Hlen; [|done].
    set (hi := Z.max (avgLatency (metrics s))
                 (foldr (λ r acc, Z.max (latencyMs r) acc) 0 (tickBatch now ids s))).
    assert (∀ r, r ∈ tickBatch now ids s → latencyMs r ≤ hi) as Hhi.
    { unfold hi. clear. induction (tickBatch now ids s) as [|r0 l IH]; intros r Hr.
      - by apply elem_of_nil in Hr.
      - simpl. apply elem_of_cons in Hr as [->|Hr]; [lia|].
        specialize (IH r Hr). lia. }
    apply (updateMetrics_range 0 hi); try done.
    + intros _. unfold hi. lia.
    + intros r Hr. split; [by apply Hbatch|by apply Hhi].
    + destruct (tickBatch now ids s); [simpl in Hlen; lia|done].
  - intros c m Hm.
    pose proof (coreLoop_served now (tickRate s) ids c (cpuCount s) (snapshot s)
                  eq_refl) as Hsplit.
    simpl in Hsplit. rewrite Hq in Hsplit.
    assert (m ∈ queues s !!! c) as Hwas.
    { rewrite <- Hsplit. apply elem_of_app. right. exact Hm. }
    specialize (Hyoung c m Hwas). lia.
  - intros r Hr. unfold tick in Hr. simpl in Hr.
    case_bool_decide; [|by apply Hlogs].
    apply subseteq_take in Hr. apply elem_of_app in Hr as [Hr|Hr];
      [by apply Hbatch|by apply Hlogs].
Qed.

Lemma run_latencies_nonneg ops s T :
  synced s →
  allQueues (queues s) →
  0 ≤ totalProcessed (metrics s) →
  0 ≤ avgLatency (metrics s) →
  (∀ c m, m ∈ queues s !!! c → m_timestamp m ≤ T) →
  (∀ r, r ∈ logs s → 0 ≤ latencyMs r) →
  StronglySorted Z.le (T :: opTimes ops) →
  ∃ s', run ops s = Normal s'
        ∧ 0 ≤ avgLatency (metrics s')
        ∧ ∀ r, r ∈ logs s' → 0 ≤ latencyMs r.
Proof.
  revert s T. induction ops as [|op ops IH];
    intros s T Hsync Hall Htotal Havg Hyoung Hlogs Hclock; [by exists s|].
  apply StronglySorted_cons in Hclock as [Hafter Hclock].
  destruct op as [c newId type price now|now ids]; simpl in Hafter, Hclock.
  - apply Forall_cons in Hafter as [Hnow _].
    destruct (Hall c) as [old Hold].
    simpl. unfold addMessage. rewrite Hold. simpl.
    apply (IH _ now); try done.
    + by apply allQueues_insert.
    + simpl. intros c' m. destruct (decide (c = c')) as [<-|Hne].
      * rewrite lookup_total_insert_eq, elem_of_app, list_elem_of_singleton.
        intros [Hm| ->]; [|simpl; lia].
        rewrite <- (lookup_total_correct _ _ _ Hold) in Hm.
        specialize (Hyoung c m Hm). lia.
      * rewrite lookup_total_insert_ne by done. intros Hm.
        specialize (Hyoung c' m Hm). lia.
  - apply Forall_cons in Hafter as [Hnow _].
    destruct (tick_keeps_latencies_nonneg now ids s T)
      as (Htotal' & Havg' & Hyoung' & Hlogs'); try done.
    simpl. rewrite syncRefs_id by apply tick_synced.
    apply (IH (tick now ids s) now);
      [apply tick_synced| |exact Htotal'|exact Havg'|exact Hyoung'|exact Hlogs'
      |exact Hclock].
    destruct Hsync as [Hq _]. apply tick_allQueues. by rewrite Hq.
Qed.

(** X9. No negative latency: when the values of [Date.now()] read by the
    injections and ticks of a run from a freshly configured system never
    decrease, the run ends with an average latency that is not negative and a
    log without negative latencies. *)
Theorem latencies_nonnegative (cores : nat) (ops : list Op) :
  StronglySorted Z.le (opTimes ops) →
  ∃ s, run ops (configured cores) = Normal s
       ∧ 0 ≤ avgLatency (metrics s)
       ∧ ∀ r, r ∈ logs s → 0 ≤ latencyMs r.
Proof.
  intros Hclock.
  assert (∀ c m, m ∈ queues (configured cores) !!! c → m_timestamp m ≤
            match opTimes ops with [] => 0 | t0 :: _ => t0 end) as Hyoung.
  { intros c m Hm. exfalso. destruct c; by apply elem_of_nil in Hm. }
  assert (∀ r, r ∈ logs (configured cores) → 0 ≤ latencyMs r) as Hlogs.
  { intros r Hr. by apply elem_of_nil in Hr. }
  assert (0 ≤ totalProcessed (metrics (configured cores))) as Htotal by done.
  assert (0 ≤ avgLatency (metrics (configured cores))) as Havg by done.
  apply (run_latencies_nonneg ops (configured cores)
           (match opTimes ops with [] => 0 | t0 :: _ => t0 end)
           (syncRefs_synced _) allQueues_emptyQueues Htotal Havg Hyoung Hlogs).
  destruct (opTimes ops) as [|t0 times]; [repeat constructor|].
  apply StronglySorted_cons. split; [|done].
  apply Forall_cons. split; [lia|].
  by apply StronglySorted_cons in Hclock as [Hafter _].
Qed.

Lemma latencies_nonnegative_witness :
  ∃ s, run [Inject APEX "p0o9i8u7y" BUY "512.25" 1000; Tick 2200 sampleId;
            Inject FLUX "q1w2e3r4t" PING "100.00" 3000; Tick 3400 sampleId]
         (configured 2) = Normal s
       ∧ 0 ≤ avgLatency (metrics s)
       ∧ ∀ r, r ∈ logs s → 0 ≤ latencyMs r.
Proof.
  apply (latencies_nonnegative 2
           [Inject APEX "p0o9i8u7y" BUY "512.25" 1000; Tick 2200 sampleId;
            Inject FLUX "q1w2e3r4t" PING "100.00" 3000; Tick 3400 sampleId]).
  simpl. repeat constructor; lia.
Defined.

(** ** Rotation, four ticks on *)

Lemma advance_four state :
  (clientIndex state < 4)%nat →
  advance (advance (advance (advance state))) = state.
Proof.
  destruct state as [[|[|[|[|k]]]]]; intros Hk; try reflexivity.
  simpl in Hk. lia.
Qed.

Lemma tick_coreStatesRef_all now ids s :
  (length (coreStatesRef s) ≤ cpuCount s)%nat →
  coreStatesRef (tick now ids s) = advance <$> coreStatesRef s.
Proof.
  intros Hlen. change (coreStatesRef (tick now ids s)) with (coreStates (tick now ids s)).
  by rewrite tick_coreStates, take_ge, drop_ge, app_nil_r.
Qed.

(** X10. The rotation has period four: when every core state belongs to a
    core below [cpuCount] and holds an index below 4, four ticks bring every
    rotation index back to where it was, whatever the queues held. *)
Theorem rotation_period_four s t1 g1 t2 g2 t3 g3 t4 g4 :
  (length (coreStatesRef s) ≤ cpuCount s)%nat →
  Forall (λ state, (clientIndex state < 4)%nat) (coreStatesRef s) →
  coreStates (tick t4 g4 (tick t3 g3 (tick t2 g2 (tick t1 g1 s))))
    = coreStatesRef s.
Proof.
  intros Hlen Hindex.
  change (coreStates (tick t4 g4 (tick t3 g3 (tick t2 g2 (tick t1 g1 s)))))
    with (coreStatesRef (tick t4 g4 (tick t3 g3 (tick t2 g2 (tick t1 g1 s))))).
  set (s1 := tick t1 g1 s). set (s2 := tick t2 g2 s1). set (s3 := tick t3 g3 s2).
  assert (coreStatesRef s1 = advance <$> coreStatesRef s) as H1
    by by apply tick_coreStatesRef_all.
  assert (coreStatesRef s2 = advance <$> coreStatesRef s1) as H2
    by (apply tick_coreStatesRef_all; rewrite H1, length_fmap; exact Hlen).
  assert (coreStatesRef s3 = advance <$> coreStatesRef s2) as H3
    by (apply tick_coreStatesRef_all; rewrite H2, H1, !length_fmap; exact Hlen).
  rewrite tick_coreStatesRef_all
    by (rewrite H3, H2, H1, !length_fmap; exact Hlen).
  rewrite H3, H2, H1.
  rewrite <- !list_fmap_compose.
  rewrite <- (list_fmap_id (coreStatesRef s)) at 2.
  apply Forall_fmap_ext. eapply Forall_impl; [exact Hindex|].
  intros state Hstate. by apply advance_four.
Qed.

Lemma rotation_period_four_witness :
  coreStates (tick 4 sampleId (tick 3 sampleId (tick 2 sampleId
                (tick 1 sampleId (configured 3)))))
    = coreStatesRef (configured 3).
Proof.
  apply (rotation_period_four (configured 3)
           1 sampleId 2 sampleId 3 sampleId 4 sampleId).
  - simpl. lia.
  - repeat constructor.
Defined.

(** ** States the events lead to, continued *)

Lemma rotated_indices t cores :
  Forall (λ state, (clientIndex state < 4)%nat) (rotated t cores).
Proof.
  unfold rotated. apply Forall_fmap, Forall_forall. intros i _.
  cbn [compose clientIndex]. change (length CLIENTS) with 4%nat.
  apply Nat.mod_upper_bound. lia.
Qed.

Lemma play_reaches_wellFormed evs s :
  play evs initialState = Normal s → wellFormed s.
Proof.
  intros Hplay.
  destruct (play_wellFormed evs initialState initialState_wellFormed)
    as (s' & Hplay' & Hwf).
  rewrite Hplay in Hplay'. by injection Hplay' as <-.
Qed.

(** X11. No sequence of events breaks the component: whatever clicks and
    timer firings follow the first render, no callback throws, and the state
    reached has the refs in step with the state cells, an entry for every
    client in the queue object, at most 50 log entries and 100 blocks, a
    counter that is not negative, at most four cores, one core state for each
    of them, and every rotation index below 4. *)
Theorem events_never_break_the_state (evs : list Event) :
  ∃ s, play evs initialState = Normal s
       ∧ queuesRef s = queues s
       ∧ coreStatesRef s = coreStates s
       ∧ (∀ c, is_Some (queues s !! c))
       ∧ (length (logs s) ≤ 50)%nat
       ∧ (length (ganttHistory s) ≤ 100)%nat
       ∧ 0 ≤ totalProcessed (metrics s)
       ∧ (cpuCount s ≤ 4)%nat
       ∧ length (coreStates s) = cpuCount s
       ∧ Forall (λ state, (clientIndex state < 4)%nat) (coreStates s).
Proof.
  destruct (play_wellFormed evs initialState initialState_wellFormed)
    as (s & Hplay & [Hq Hc] & Hall & Hlogs & Hgantt & Htotal & Hcpu & t & Hrot).
  exists s. repeat split; try done.
  - rewrite Hrot. apply rotated_length.
  - rewrite Hrot. apply rotated_indices.
Qed.

(** X12. The cores never meet: in every state the events lead to, two
    different cores below [cpuCount] point at two different clients. *)
Theorem cores_never_meet (evs : list Event) s i j :
  play evs initialState = Normal s →
  (i < j)%nat →
  (j < cpuCount s)%nat →
  ∃ ci cj, target (coreStates s) i = Some ci
           ∧ target (coreStates s) j = Some cj
           ∧ ci ≠ cj.
Proof.
  intros Hplay Hij Hj.
  pose proof (play_reaches_wellFormed evs s Hplay) as Hwf.
  pose proof Hwf as ([_ Hc] & _ & _ & _ & _ & Hcpu & t & Hrot).
  assert (∀ k, (k < cpuCount s)%nat → is_Some (target (coreStates s) k)) as Hsome.
  { intros k Hk. rewrite Hrot. unfold target, rotated.
    rewrite list_lookup_fmap, lookup_seq_lt by done.
    cbn [fmap option_fmap option_map mbind option_bind clientIndex].
    apply lookup_lt_is_Some_2. apply Nat.mod_upper_bound.
    change (length CLIENTS) with 4%nat. lia. }
  destruct (Hsome i) as [ci Hi]; [lia|]. destruct (Hsome j Hj) as [cj Hcj].
  exists ci, cj. split; [done|]. split; [done|]. intros <-.
  apply (wellFormed_no_collision s i j ci Hwf Hij Hj); by rewrite Hc.
Qed.

Lemma cores_never_meet_witness :
  ∃ ci cj, target (coreStates twoCoresTicked) 0 = Some ci
           ∧ target (coreStates twoCoresTicked) 1 = Some cj
           ∧ ci ≠ cj.
Proof.
  apply (cores_never_meet
           [SelectCores 2; ToggleProcessing; SchedulerTimer 2200 sampleId]
           twoCoresTicked 0 1).
  - reflexivity.
  - lia.
  - simpl. lia.
Defined.

Lemma tick_coreStates_length now ids s :
  length (coreStates (tick now ids s)) = length (coreStatesRef s).
Proof.
  rewrite tick_coreStates, length_app, length_fmap, length_take, length_drop. lia.
Qed.

(** X13. The configuration is locked after boot: once the component has
    left configuration mode, no callback other than the one of the power
    button brings it back there or changes the number of cores or the number
    of core states the scheduler works on, whether or not its render has
    happened yet. *)
Theorem configuration_locked_after_boot ev s s' :
  configMode s = false →
  ev ≠ PowerButton →
  handle ev s = Normal s' →
  configMode s' = false
  ∧ cpuCount s' = cpuCount s
  ∧ length (coreStatesRef s') = length (coreStatesRef s)
  ∧ configMode (syncRefs s') = false
  ∧ cpuCount (syncRefs s') = cpuCount s.
Proof.
  intros Hboot Hev.
  destruct ev as [cores| | | |ms|c newId type price now|now ids]; simpl;
    try done; try (by intros [= <-]).
  - rewrite Hboot. simpl. by intros [= <-].
  - destruct (injectorRunning s); [|by intros [= <-]].
    unfold addMessage. destruct (queues s !! c); [|done]. by intros [= <-].
  - destruct (schedulerRunning s); [|by intros [= <-]].
    intros [= <-]. simpl. repeat split; try done.
    fold (tickLoop now ids s). change (currentCoreStates (tickLoop now ids s))
      with (coreStates (tick now ids s)).
    by rewrite tick_coreStates_length.
Qed.

Lemma configuration_locked_after_boot_witness :
  configMode twoCoresTicked = false
  ∧ cpuCount twoCoresTicked = cpuCount (setIsProcessing true (configured 2))
  ∧ length (coreStatesRef twoCoresTicked)
    = length (coreStatesRef (setIsProcessing true (configured 2)))
  ∧ configMode (syncRefs twoCoresTicked) = false
  ∧ cpuCount (syncRefs twoCoresTicked) = cpuCount (setIsProcessing true (configured 2)).
Proof.
  apply (configuration_locked_after_boot (SchedulerTimer 2200 sampleId)
           (setIsProcessing true (configured 2)) twoCoresTicked).
  - reflexivity.
  - discriminate.
  - reflexivity.
Defined.

(** ** A tick between an injection and its render *)

(** X14. The tick reads the refs only: a tick that runs on the state
    [addMessage] leaves behind, before the render has brought [queuesRef] up
    to date, ends in the very state it would have reached without the
    injection; the [queues] cell is overwritten and the injected message is
    in no queue and in no record. *)
Theorem unrendered_injection_is_overwritten c newId type price time now ids s s1 :
  addMessage c newId type price time s = Normal s1 →
  tick now ids s1 = tick now ids s.
Proof.
  unfold addMessage. destruct (queues s !! c); [|done]. by intros [= <-].
Qed.

Lemma unrendered_injection_is_overwritten_witness :
  tick 2200 sampleId
    (setQueues (<[APEX := [] ++ [mkMessage "p0o9i8u7y" APEX
                                   (MsgType_text BUY +:+ " @ " +:+ "512.25")
                                   1000 BUY]]> (queues (configured 1)))
       (configured 1))
  = tick 2200 sampleId (configured 1).
Proof.
  apply (unrendered_injection_is_overwritten APEX "p0o9i8u7y" BUY "512.25" 1000
           2200 sampleId (configured 1)).
  reflexivity.
Defined.

(** ** Messages and the queue they wait in *)

Lemma tick_homed now ids s :
  synced s → homed (queues s) → homed (queues (tick now ids s)).
Proof.
  intros [Hq _] Hhomed c m Hm. apply Hhomed.
  pose proof (coreLoop_served now (tickRate s) ids c (cpuCount s) (snapshot s)
                eq_refl) as Hsplit.
  simpl in Hsplit. rewrite Hq in Hsplit. rewrite <- Hsplit.
  apply elem_of_app. right. exact Hm.
Qed.

Lemma dispatch_homed ev s s' :
  synced s → homed (queues s) → dispatch ev s = Normal s' → homed (queues s').
Proof.
  intros Hsync Hhomed. unfold dispatch.
  destruct ev as [cores| | | |ms|c newId type price now|now ids]; simpl.
  - destruct (configMode s && _); by intros [= <-].
  - intros [= <-]. intros c m Hm. exfalso. destruct c; by apply elem_of_nil in Hm.
  - by intros [= <-].
  - by intros [= <-].
  - by intros [= <-].
  - destruct (injectorRunning s); [|by intros [= <-]].
    unfold addMessage. destruct (queues s !! c) as [old|] eqn:Hold; [|done].
    intros [= <-]. simpl. intros c' m.
    destruct (decide (c = c')) as [<-|Hne].
    + rewrite lookup_total_insert_eq, elem_of_app, list_elem_of_singleton.
      intros [Hm| ->]; [|done].
      apply Hhomed. by rewrite (lookup_total_correct _ _ _ Hold).
    + rewrite lookup_total_insert_ne by done. apply Hhomed.
  - destruct (schedulerRunning s); [|by intros [= <-]].
    intros [= <-]. simpl. by apply tick_homed.
Qed.

Lemma play_homed evs s s' :
  synced s → homed (queues s) → play evs s = Normal s' → homed (queues s').
Proof.
  revert s. induction evs as [|ev evs IH]; intros s Hsync Hhomed; simpl.
  - by intros [= <-].
  - destruct (dispatch ev s) as [s1|e] eqn:Hstep; [|done]. simpl.
    apply IH.
    + unfold dispatch in Hstep. destruct (handle ev s); [|done].
      injection Hstep as <-. apply syncRefs_synced.
    + by apply (dispatch_homed ev s).
Qed.

(** X15. Messages wait in the queue of their client: in every state the
    events lead to, each message in the queue of a client carries that client
    as [clientId]; hence the record and the block a tick makes for a message
    name the same client. *)
Theorem messages_wait_in_their_own_queue (evs : list Event) s now ids :
  play evs initialState = Normal s →
  (∀ c m, m ∈ queues s !!! c → m_clientId m = c)
  ∧ Forall2 (λ r g, m_clientId (p_msg r) = g_clientId g)
      (tickBatch now ids s) (ganttItems (tickLoop now ids s)).
Proof.
  intros Hplay.
  assert (homed (queues s)) as Hhomed.
  { apply (play_homed evs initialState s); [by split| |done].
    intros c m Hm. exfalso. destruct c; by apply elem_of_nil in Hm. }
  destruct (play_reaches_wellFormed evs s Hplay) as ([Hq _] & _).
  split; [exact Hhomed|].
  pose proof (coreLoop_blocks now (tickRate s) ids (cpuCount s) (snapshot s)
                eq_refl eq_refl) as Hblocks.
  apply Forall2_same_length_lookup in Hblocks as [Hlen Hblocks].
  apply Forall2_same_length_lookup. split; [exact Hlen|].
  intros k r g Hr Hg. destruct (Hblocks k r g Hr Hg) as [_ Htarget].
  assert (r ∈ processedItems (coreLoop now (tickRate s) ids (cpuCount s) (snapshot s)))
    as Hin by (apply list_elem_of_lookup; by exists k).
  destruct (coreLoop_record_origin now (tickRate s) ids (cpuCount s) (snapshot s) r
              eq_refl eq_refl Hin) as (_ & _ & c & Hc & Hwaiting).
  rewrite Htarget in Hc. injection Hc as <-.
  simpl in Hwaiting. rewrite Hq in Hwaiting. by apply Hhomed.
Qed.

Lemma messages_wait_in_their_own_queue_witness :
  (∀ c m, m ∈ queues twoCoresTicked !!! c → m_clientId m = c)
  ∧ Forall2 (λ r g, m_clientId (p_msg r) = g_clientId g)
      (tickBatch 3400 sampleId twoCoresTicked)
      (ganttItems (tickLoop 3400 sampleId twoCoresTicked)).
Proof.
  apply (messages_wait_in_their_own_queue
           [SelectCores 2; ToggleProcessing; SchedulerTimer 2200 sampleId]
           twoCoresTicked 3400 sampleId).
  reflexivity.
Defined.

(** * The tutorial *)

Lemma nextStep_range t : -1 ≤ t ≤ 4 → -1 ≤ nextStep t ≤ 4.
Proof. intros Ht. unfold nextStep. simpl. case_bool_decide; lia. Qed.

Lemma prevStep_range t : -1 ≤ t ≤ 4 → -1 ≤ prevStep t ≤ 4.
Proof. intros Ht. unfold prevStep. case_bool_decide; lia. Qed.

Lemma tutorialClick_range t click : -1 ≤ t ≤ 4 → -1 ≤ tutorialClick t click ≤ 4.
Proof.
  intros Ht. destruct click; simpl;
    [by apply nextStep_range|by apply prevStep_range|done..].
Qed.

Lemma tutorial_clicks_range clicks t :
  -1 ≤ t ≤ 4 → -1 ≤ foldl tutorialClick t clicks ≤ 4.
Proof.
  revert t. induction clicks as [|click clicks IH]; intros t Ht; [done|].
  simpl. apply IH. by apply tutorialClick_range.
Qed.

Lemma tutorial_cases t :
  t < 0 ∨ t = 0 ∨ t = 1 ∨ t = 2 ∨ t = 3 ∨ t = 4 ∨ 5 ≤ t.
Proof. lia. Qed.

Lemma stepAt_beyond t : 5 ≤ t → stepAt t = None.
Proof.
  intros Ht. unfold stepAt. rewrite bool_decide_eq_true_2 by lia.
  apply lookup_ge_None_2. simpl. lia.
Qed.

(** X16. The tutorial always has a step to show: after any sequence of
    clicks on Next, Back, Skip, Tutorial and the power button, starting from
    the closed tutorial, [tutorialStep] lies between -1 and 4, and the
    tutorial is active exactly when [TUTORIAL_STEPS] has an entry for it. *)
Theorem tutorial_step_in_range (clicks : list TutorialClick) :
  -1 ≤ foldl tutorialClick (-1) clicks ≤ 4
  ∧ (isTutorialActive (foldl tutorialClick (-1) clicks) = true
     ↔ is_Some (stepAt (foldl tutorialClick (-1) clicks))).
Proof.
  assert (-1 ≤ foldl tutorialClick (-1) clicks ≤ 4) as Hrange
    by (apply tutorial_clicks_range; lia).
  split; [done|].
  revert Hrange. generalize (foldl tutorialClick (-1) clicks). intros t Ht.
  assert (t = -1 ∨ t = 0 ∨ t = 1 ∨ t = 2 ∨ t = 3 ∨ t = 4)
    as [->|[->|[->|[->|[->| ->]]]]] by lia;
    (split; [intros Hactive|intros [step Hstep]]); try done; by eexists.
Qed.

(** X17. Next walks through the steps and then closes: [k] clicks on Next
    after opening the tutorial show step [k] as long as [k] is at most 4, and
    the fifth click closes the tutorial. *)
Theorem tutorial_next_walks_through (k : nat) :
  (k ≤ 5)%nat →
  Nat.iter k nextStep startTutorial
    = if bool_decide (k ≤ 4)%nat then Z.of_nat k else -1.
Proof.
  intros Hk.
  assert (k = 0 ∨ k = 1 ∨ k = 2 ∨ k = 3 ∨ k = 4 ∨ k = 5)%nat
    as [->|[->|[->|[->|[->| ->]]]]] by lia; reflexivity.
Qed.

Lemma tutorial_next_walks_through_witness :
  Nat.iter 5 nextStep startTutorial = if bool_decide (5 ≤ 4)%nat then 5 else -1.
Proof. apply (tutorial_next_walks_through 5). lia. Defined.

Lemma getHighlightClass_active t step id :
  0 ≤ t →
  stepAt t = Some step →
  getHighlightClass t id = highlighted ↔ targetId step = Some id.
Proof.
  intros Ht Hstep. unfold getHighlightClass, isTutorialActive.
  rewrite bool_decide_eq_true_2, Hstep by done. simpl.
  case_bool_decide; [done|]. split; [|done]. unfold dimmed, highlighted. discriminate.
Qed.

Lemma getHighlightClass_none t id :
  stepAt t = None → getHighlightClass t id ≠ highlighted.
Proof.
  intros Hstep. unfold getHighlightClass. rewrite Hstep.
  unfold highlighted. by destruct (negb (isTutorialActive t)).
Qed.

Lemma stepAt_negative t : t < 0 → stepAt t = None.
Proof. intros Ht. unfold stepAt. by rewrite bool_decide_eq_false_2 by lia. Qed.

Lemma currentTargetId_none t : stepAt t = None → currentTargetId t = None.
Proof.
  intros Hstep. unfold currentTargetId. rewrite Hstep.
  by destruct (isTutorialActive t).
Qed.

(** X18. What the tutorial highlights: an element gets the highlight class
    exactly at step 1 for processor-core, step 2 for view-toggle, step 3 for
    queue-grid and step 4 for controls-area; so at most one element is
    highlighted at a time, none at step 0, and quantum-slider and
    execution-logs never.  The header is raised exactly at steps 2 and 4, the
    sidebar exactly at step 1. *)
Theorem tutorial_highlight_map (t : Z) (id : string) :
  (getHighlightClass t id = highlighted
   ↔ (t = 1 ∧ id = "processor-core") ∨ (t = 2 ∧ id = "view-toggle")
     ∨ (t = 3 ∧ id = "queue-grid") ∨ (t = 4 ∧ id = "controls-area"))
  ∧ (isHeaderHighlighted t = true ↔ t = 2 ∨ t = 4)
  ∧ (isSidebarHighlighted t = true ↔ t = 1).
Proof.
  destruct (tutorial_cases t) as [Hneg|[->|[->|[->|[->|[->|Hbig]]]]]].
  - pose proof (stepAt_negative t Hneg) as Hstep.
    unfold isHeaderHighlighted, isSidebarHighlighted.
    rewrite (currentTargetId_none t Hstep). simpl.
    split; [|split; split; (done || lia)].
    split; [intros Hh; by apply getHighlightClass_none in Hh|lia].
  - split; [|split; split; (done || lia)].
    rewrite (getHighlightClass_active 0 _ id ltac:(lia) eq_refl). simpl.
    split; [done|lia].
  - split; [|split; split; (done || lia)].
    rewrite (getHighlightClass_active 1 _ id ltac:(lia) eq_refl). simpl.
    split; [intros [= <-]; by left|].
    intros [[_ ->]|[[? _]|[[? _]|[? _]]]]; (done || lia).
  - split; [|split; split; (done || lia || by left)].
    rewrite (getHighlightClass_active 2 _ id ltac:(lia) eq_refl). simpl.
    split; [intros [= <-]; right; by left|].
    intros [[? _]|[[_ ->]|[[? _]|[? _]]]]; (done || lia).
  - split; [|split; split; (done || lia)].
    rewrite (getHighlightClass_active 3 _ id ltac:(lia) eq_refl). simpl.
    split; [intros [= <-]; right; right; by left|].
    intros [[? _]|[[? _]|[[_ ->]|[? _]]]]; (done || lia).
  - split; [|split; split; (done || lia || by right)].
    rewrite (getHighlightClass_active 4 _ id ltac:(lia) eq_refl). simpl.
    split; [intros [= <-]; right; right; by right|].
    intros [[? _]|[[? _]|[[? _]|[_ ->]]]]; (done || lia).
  - pose proof (stepAt_beyond t Hbig) as Hstep.
    unfold isHeaderHighlighted, isSidebarHighlighted.
    rewrite (currentTargetId_none t Hstep). simpl.
    split; [|split; split; (done || lia)].
    split; [intros Hh; by apply getHighlightClass_none in Hh|lia].
Qed.

(** * The client columns and the core visualizer *)

Lemma rotated_mod t cores : rotated t cores = rotated (t `mod` 4) cores.
Proof.
  unfold rotated. apply list_fmap_ext. intros _ i _. f_equal.
  change (length CLIENTS) with 4%nat. by rewrite Nat.Div0.add_mod_idemp_r.
Qed.

(** The core states of a state the events lead to are one of twenty lists. *)
Lemma wellFormed_coreStates s :
  wellFormed s →
  ∃ t cores, (t < 4)%nat ∧ (cores ≤ 4)%nat ∧ cpuCount s = cores
             ∧ coreStates s = rotated t cores.
Proof.
  intros (_ & _ & _ & _ & _ & Hcpu & t & Hrot).
  exists (t `mod` 4)%nat, (cpuCount s). split; [apply Nat.mod_upper_bound; lia|].
  split; [done|]. split; [done|]. by rewrite <- rotated_mod.
Qed.

(** X19. The columns can always be drawn: in every state the events lead
    to, the column of each client is targeted by at most one core, reading
    the theme of its background and of its badges does not throw, there is
    one badge for each core on the column, and the badges of the four columns
    together are as many as there are cores. *)
Theorem columns_can_be_drawn (evs : list Event) s id :
  play evs initialState = Normal s →
  (length (activeCores id (coreStates s)) ≤ 1)%nat
  ∧ (∃ class, columnBackground id (coreStates s) = Normal class)
  ∧ (∃ badges, columnBadges id (coreStates s) = Normal badges
               ∧ length badges = length (activeCores id (coreStates s)))
  ∧ sum_list ((λ c, length (activeCores c (coreStates s))) <$> CLIENTS)
    = cpuCount s.
Proof.
  intros Hplay.
  destruct (wellFormed_coreStates s (play_reaches_wellFormed evs s Hplay))
    as (t & cores & Ht & Hcores & -> & ->).
  assert (t = 0 ∨ t = 1 ∨ t = 2 ∨ t = 3)%nat as [->|[->|[->| ->]]] by lia;
    (assert (cores = 0 ∨ cores = 1 ∨ cores = 2 ∨ cores = 3 ∨ cores = 4)%nat
       as [->|[->|[->|[->| ->]]]] by lia);
    destruct id; vm_compute;
    (split; [lia|split; [by eexists|split; [by eexists|done]]]).
Qed.

Lemma columns_can_be_drawn_witness :
  (length (activeCores NOVA (coreStates twoCoresTicked)) ≤ 1)%nat
  ∧ (∃ class, columnBackground NOVA (coreStates twoCoresTicked) = Normal class)
  ∧ (∃ badges, columnBadges NOVA (coreStates twoCoresTicked) = Normal badges
               ∧ length badges = length (activeCores NOVA (coreStates twoCoresTicked)))
  ∧ sum_list ((λ c, length (activeCores c (coreStates twoCoresTicked))) <$> CLIENTS)
    = cpuCount twoCoresTicked.
Proof.
  apply (columns_can_be_drawn
           [SelectCores 2; ToggleProcessing; SchedulerTimer 2200 sampleId]
           twoCoresTicked NOVA).
  reflexivity.
Defined.

(** X20. Every core can be drawn: in every state the events lead to, the
    visualizer of each core below [cpuCount] completes with a view; the
    pointer is turned by 0, 90, 180 or 270 degrees, a quarter turn for each
    position of the rotation index, and the label is the client the core
    points at. *)
Theorem cores_can_be_drawn (evs : list Event) s coreId :
  play evs initialState = Normal s →
  (coreId < cpuCount s)%nat →
  ∃ view c,
    CoreVisualizer (cpuCount s) coreId (coreStates s !! coreId) = Normal (Some view)
    ∧ cv_label view = Some c
    ∧ target (coreStates s) coreId = Some c
    ∧ CLIENTS !! (cv_degrees view `div` 90)%nat = Some c
    ∧ cv_degrees view ∈ [0; 90; 180; 270]%nat.
Proof.
  intros Hplay.
  destruct (wellFormed_coreStates s (play_reaches_wellFormed evs s Hplay))
    as (t & cores & Ht & Hcores & -> & ->).
  intros Hcore.
  assert (t = 0 ∨ t = 1 ∨ t = 2 ∨ t = 3)%nat as [->|[->|[->| ->]]] by lia;
    (assert (cores = 0 ∨ cores = 1 ∨ cores = 2 ∨ cores = 3 ∨ cores = 4)%nat
       as [->|[->|[->|[->| ->]]]] by lia);
    try lia;
    (assert (coreId = 0 ∨ coreId = 1 ∨ coreId = 2 ∨ coreId = 3)%nat
       as [->|[->|[->| ->]]] by lia);
    try lia;
    (eexists; eexists; split; [reflexivity|]; split; [reflexivity|];
     split; [reflexivity|]; split; [reflexivity|]; set_solver).
Qed.

Lemma cores_can_be_drawn_witness :
  ∃ view c,
    CoreVisualizer (cpuCount twoCoresTicked) 1 (coreStates twoCoresTicked !! 1%nat)
      = Normal (Some view)
    ∧ cv_label view = Some c
    ∧ target (coreStates twoCoresTicked) 1 = Some c
    ∧ CLIENTS !! (cv_degrees view `div` 90)%nat = Some c
    ∧ cv_degrees view ∈ [0; 90; 180; 270]%nat.
Proof.
  apply (cores_can_be_drawn
           [SelectCores 2; ToggleProcessing; SchedulerTimer 2200 sampleId]
           twoCoresTicked 1).
  - reflexivity.
  - simpl. lia.
Defined.

(** * The Gantt panel *)

Lemma findIndexById_found history block :
  block ∈ history →
  ∃ i first, findIndexById (g_id block) history = Z.of_nat i
             ∧ history !! i = Some first
             ∧ g_id first = g_id block
             ∧ ∀ k, history !! k = Some block → (i ≤ k)%nat.
Proof.
  intros Hin.
  destruct (list_find_elem_of (λ b, g_id b = g_id block) history block Hin eq_refl)
    as [[i first] Hfind].
  pose proof Hfind as (Hi & Hid & Hleast)%list_find_Some.
  exists i, first. unfold findIndexById. rewrite Hfind.
  split; [done|]. split; [done|]. split; [done|].
  intros k Hk. destruct (decide (i ≤ k)%nat) as [|Hlt]; [done|].
  exfalso. apply (Hleast k block Hk); [lia|done].
Qed.

(** X21. Every bar lies inside the timeline: the bar of a block of the
    history starts at a multiple of 40 pixels that is not negative and not
    beyond 40 times the position of the block, and its 30 pixels end within
    the width of the panel. *)
Theorem bars_lie_inside_the_timeline history block k :
  history !! k = Some block →
  0 ≤ barLeft history block ≤ 40 * Z.of_nat k
  ∧ barLeft history block + 30 ≤ ganttWidth history.
Proof.
  intros Hk.
  destruct (findIndexById_found history block) as (i & first & Hfind & _ & _ & Hleast);
    [by apply list_elem_of_lookup_2 in Hk|].
  specialize (Hleast k Hk). apply lookup_lt_Some in Hk.
  unfold barLeft, ganttWidth. rewrite Hfind. lia.
Qed.

Lemma bars_lie_inside_the_timeline_witness :
  0 ≤ barLeft (ganttHistory (tick 2200 sampleId oneWaiting))
        (mkGanttBlock (sampleId 0) APEX 1000 2200 0) ≤ 40 * Z.of_nat 0
  ∧ barLeft (ganttHistory (tick 2200 sampleId oneWaiting))
      (mkGanttBlock (sampleId 0) APEX 1000 2200 0) + 30
    ≤ ganttWidth (ganttHistory (tick 2200 sampleId oneWaiting)).
Proof.
  apply (bars_lie_inside_the_timeline
           (ganttHistory (tick 2200 sampleId oneWaiting))
           (mkGanttBlock (sampleId 0) APEX 1000 2200 0) 0).
  reflexivity.
Defined.

(** X22. Blocks with different ids get different slots: when no two blocks
    of the history share an id, the bar of the block at position [k] starts
    at 40 times [k] pixels, so bars of different blocks are at least 40
    pixels apart and their 30 pixels do not overlap. *)
Theorem bar_slot_is_block_position history block k :
  NoDup (g_id <$> history) →
  history !! k = Some block →
  barLeft history block = 40 * Z.of_nat k.
Proof.
  intros Hids Hk.
  destruct (findIndexById_found history block) as (i & first & Hfind & Hi & Hsame & _);
    [by apply list_elem_of_lookup_2 in Hk|].
  assert (i = k) as ->.
  { apply (NoDup_lookup (g_id <$> history) i k (g_id block) Hids).
    - by rewrite list_lookup_fmap, Hi, <- Hsame.
    - by rewrite list_lookup_fmap, Hk. }
  unfold barLeft. rewrite Hfind. lia.
Qed.

Lemma bar_slot_is_block_position_witness :
  barLeft [mkGanttBlock "k3j9x0q2a" APEX 1000 2200 0;
           mkGanttBlock "p0o9i8u7y" NOVA 1000 2200 1]
    (mkGanttBlock "p0o9i8u7y" NOVA 1000 2200 1) = 40 * Z.of_nat 1.
Proof.
  apply (bar_slot_is_block_position
           [mkGanttBlock "k3j9x0q2a" APEX 1000 2200 0;
            mkGanttBlock "p0o9i8u7y" NOVA 1000 2200 1]
           (mkGanttBlock "p0o9i8u7y" NOVA 1000 2200 1) 1).
  - simpl. apply NoDup_cons. split; [|apply NoDup_singleton].
    intros Hin%list_elem_of_singleton. discriminate.
  - reflexivity.
Defined.

Lemma ganttRow_cons client block history :
  length (ganttRow client (block :: history))
    = ((if decide (g_clientId block = client) then 1 else 0)
         + length (ganttRow client history))%nat.
Proof.
  unfold ganttRow. destruct (decide (g_clientId block = client)).
  - by rewrite filter_cons_True.
  - by rewrite filter_cons_False.
Qed.

(** X23. Every block is drawn in one row: the rows of the four clients
    together hold as many bars as the history has blocks, and the bars of a
    row are the blocks of that client in the order of the history. *)
Theorem gantt_rows_split_the_history history :
  sum_list ((λ client, length (ganttRow client history)) <$> CLIENTS)
    = length history
  ∧ ∀ client, ganttRow client history `sublist_of` history
              ∧ Forall (λ block, g_clientId block = client) (ganttRow client history).
Proof.
  split.
  - induction history as [|block history IH]; [done|].
    unfold CLIENTS in *. simpl in *. rewrite !ganttRow_cons.
    destruct (g_clientId block);
      repeat (destruct (decide _) as [?|?]; try done); lia.
  - intros client. split; [apply sublist_filter|].
    apply Forall_forall. intros block Hblock.
    by apply list_elem_of_filter in Hblock as [? _].
Qed.

(** * Configuration mode *)

Lemma dispatch_config_clean ev s s' :
  (configMode s = true →
   queues s = emptyQueues ∧ logs s = [] ∧ ganttHistory s = []
   ∧ metrics s = zeroMetrics) →
  dispatch ev s = Normal s' →
  configMode s' = true →
  queues s' = emptyQueues ∧ logs s' = [] ∧ ganttHistory s' = []
  ∧ metrics s' = zeroMetrics.
Proof.
  intros Hclean. unfold dispatch.
  destruct ev as [cores| | | |ms|c newId type price now|now ids]; simpl.
  - destruct (configMode s && _); intros [= <-]; simpl; [discriminate|exact Hclean].
  - by intros [= <-].
  - intros [= <-]. exact Hclean.
  - intros [= <-]. exact Hclean.
  - intros [= <-]. exact Hclean.
  - destruct (injectorRunning s) eqn:Hrun; [|intros [= <-]; exact Hclean].
    apply andb_prop in Hrun as [_ Hmode%negb_true_iff].
    unfold addMessage. destruct (queues s !! c); simpl; [|done].
    intros [= <-]. simpl. congruence.
  - destruct (schedulerRunning s) eqn:Hrun; [|intros [= <-]; exact Hclean].
    apply andb_prop in Hrun as [_ Hmode%negb_true_iff].
    intros [= <-]. simpl. congruence.
Qed.

Lemma play_config_clean evs s s' :
  (configMode s = true →
   queues s = emptyQueues ∧ logs s = [] ∧ ganttHistory s = []
   ∧ metrics s = zeroMetrics) →
  play evs s = Normal s' →
  configMode s' = true →
  queues s' = emptyQueues ∧ logs s' = [] ∧ ganttHistory s' = []
  ∧ metrics s' = zeroMetrics.
Proof.
  revert s. induction evs as [|ev evs IH]; intros s Hclean; simpl.
  - intros [= <-]. exact Hclean.
  - destruct (dispatch ev s) as [s1|e] eqn:Hstep; [|done]. simpl.
    apply IH. by apply (dispatch_config_clean ev s).
Qed.

(** X24. Configuration always starts from nothing: in every state the events
    lead to in which the configuration overlay is shown, the four queues are
    empty, both histories are empty and the metrics are zero; so the core
    buttons always configure a system without messages or records, although
    [initializeSystem] itself clears none of them. *)
Theorem configuration_starts_from_nothing (evs : list Event) s cores :
  play evs initialState = Normal s →
  configMode s = true →
  queues s = emptyQueues
  ∧ logs s = []
  ∧ ganttHistory s = []
  ∧ metrics s = zeroMetrics
  ∧ queues (initializeSystem cores s) = emptyQueues
  ∧ logs (initializeSystem cores s) = []
  ∧ metrics (initializeSystem cores s) = zeroMetrics.
Proof.
  intros Hplay Hmode.
  destruct (play_config_clean evs initialState s) as (Hq & Hl & Hg & Hm); try done.
Qed.

Lemma configuration_starts_from_nothing_witness :
  queues (resetSystem twoCoresTicked) = emptyQueues
  ∧ logs (resetSystem twoCoresTicked) = []
  ∧ ganttHistory (resetSystem twoCoresTicked) = []
  ∧ metrics (resetSystem twoCoresTicked) = zeroMetrics
  ∧ queues (initializeSystem 3 (resetSystem twoCoresTicked)) = emptyQueues
  ∧ logs (initializeSystem 3 (resetSystem twoCoresTicked)) = []
  ∧ metrics (initializeSystem 3 (resetSystem twoCoresTicked)) = zeroMetrics.
Proof.
  assert (play [SelectCores 2; ToggleProcessing; SchedulerTimer 2200 sampleId;
                PowerButton] initialState
          = Normal (syncRefs (resetSystem twoCoresTicked))) as Hplay
    by reflexivity.
  exact (configuration_starts_from_nothing
           [SelectCores 2; ToggleProcessing; SchedulerTimer 2200 sampleId; PowerButton]
           (syncRefs (resetSystem twoCoresTicked)) 3 Hplay eq_refl).
Defined.

(** * Beyond the safe integers *)

(** With a message of time 0 and one of time 1 taken at time
    8000000000000000, the two latencies are safe integers but their sum is
    not: in doubles it is rounded to 16000000000000000, and the average
    becomes 8000000000000000, whereas the floor of the exact quotient is
    7999999999999999. *)
Lemma average_differs_beyond_safe_integers :
  latencyMs <$> tickBatch 8000000000000000 sampleId farApart
    = [8000000000000000; 7999999999999999]
  ∧ (updateMetricsDouble (tickBatch 8000000000000000 sampleId farApart)
       (metrics farApart)).2
    = toDouble 8000000000000000
  ∧ (avgLatency (metrics farApart) * totalProcessed (metrics farApart)
       + latencySum (tickBatch 8000000000000000 sampleId farApart))
    `div` (totalProcessed (metrics farApart)
             + Z.of_nat (length (tickBatch 8000000000000000 sampleId farApart)))
    = 7999999999999999
  ∧ toDouble 8000000000000000 ≠ toDouble 7999999999999999
  ∧ ¬ exactBatch (tickBatch 8000000000000000 sampleId farApart) (metrics farApart).
Proof.
  split; [reflexivity|]. split; [reflexivity|]. split; [reflexivity|].
  split; [discriminate|].
  intros (_ & _ & _ & _ & Hsums & _).
  assert (runningSums 0 (tickBatch 8000000000000000 sampleId farApart)
          = [8000000000000000; 15999999999999999]) as Heq by reflexivity.
  rewrite Heq in Hsums. apply Forall_cons in Hsums as [_ Hsums].
  apply Forall_cons in Hsums as [[_ Hsum] _].
  unfold MAX_SAFE_INTEGER in Hsum. lia.
Qed.

(** * Schedules *)

Lemma schedule_app ms1 ms2 s :
  schedule (ms1 ++ ms2) s = (s' ←c schedule ms1 s; schedule ms2 s').
Proof.
  revert s. induction ms1 as [|m ms1 IH]; intros s; [done|].
  simpl. destruct (moment m s) as [s1|e]; simpl; [apply IH|done].
Qed.

(** A rendered run is the schedule with a render after every callback. *)
Lemma run_rendered ops s : synced s → run ops s = schedule (rendered ops) s.
Proof.
  revert s. induction ops as [|op ops IH]; intros s Hsync; [done|].
  unfold rendered in *. simpl.
  destruct op as [c newId type price now|now ids]; simpl.
  - destruct (addMessage c newId type price now s) as [s1|e]; simpl; [|done].
    apply IH, syncRefs_synced.
  - apply IH, syncRefs_synced.
Qed.



Lemma configured_tick_idle now ids cores :
  tickBatch now ids (configured cores) = []
  ∧ queues (tick now ids (configured cores)) = emptyQueues
  ∧ metrics (tick now ids (configured cores)) = zeroMetrics.
Proof.
  destruct (coreLoop_idle now (tickRate (configured cores)) ids
              (cpuCount (configured cores)) (snapshot (configured cores))
              (cpuCount (configured cores))) as (Hq & Hitems & _); [|done|].
  { intros coreId c _ _. by destruct c. }
  fold (tickLoop now ids (configured cores)) in Hq, Hitems.
  split; [exact Hitems|]. split; [exact Hq|].
  rewrite tick_metrics. unfold tickBatch. by rewrite Hitems.
Qed.

(** C1. Conservation of messages does not hold of the code: on a freshly
    configured system, a tick that runs after [addMessage] but before the
    render that brings [queuesRef] up to date starts from the queues of the
    previous render and writes them back over the [queues] cell.  One message
    was injected; no queue holds it, no record was made of it, and
    [totalProcessed] is 0; a later render does not bring it back. *)
Theorem injection_lost_before_render cores c newId type price time now ids :
  ∃ s, schedule [Callback (Inject c newId type price time); Callback (Tick now ids)]
         (configured cores) = Normal s
       ∧ injected [Callback (Inject c newId type price time); Callback (Tick now ids)]
         = 1%nat
       ∧ queueTotal (queues s) = 0%nat
       ∧ totalProcessed (metrics s) = 0
       ∧ logs s = []
       ∧ Z.of_nat (queueTotal (queues s)) + totalProcessed (metrics s)
         ≠ Z.of_nat (injected [Callback (Inject c newId type price time);
                               Callback (Tick now ids)])
       ∧ schedule [Callback (Inject c newId type price time); Callback (Tick now ids);
                   Render] (configured cores) = Normal s.
Proof.
  destruct (configured_tick_idle now ids cores) as (Hbatch & Hq & Hm).
  assert (queues (configured cores) !! c = Some []) as Hempty by by destruct c.
  assert (addMessage c newId type price time (configured cores)
          = Normal (setQueues
                      (<[c := [] ++ [mkMessage newId c
                                       (MsgType_text type +:+ " @ " +:+ price)
                                       time type]]> (queues (configured cores)))
                      (configured cores))) as Hadd
    by (unfold addMessage; by rewrite Hempty).
  assert (logs (tick now ids (configured cores)) = []) as Hlogs.
  { unfold tick. cbn [logs]. fold (tickLoop now ids (configured cores)).
    unfold tickBatch in Hbatch. by rewrite Hbatch. }
  assert (tick now ids
            (setQueues
               (<[c := [] ++ [mkMessage newId c
                                (MsgType_text type +:+ " @ " +:+ price)
                                time type]]> (queues (configured cores)))
               (configured cores))
          = tick now ids (configured cores)) as Htick by reflexivity.
  exists (tick now ids (configured cores)).
  cbn [schedule moment bindC injected]. rewrite Hadd. cbn [bindC].
  rewrite !Htick, Hq, Hm.
  split; [done|]. split; [done|]. split; [done|]. split; [done|].
  split; [exact Hlogs|]. split; [done|].
  by rewrite (syncRefs_id _ (tick_synced now ids (configured cores))).
Qed.

(** C10. The idle-tick frame condition does not hold of the code: on the
    state [addMessage] leaves on a freshly configured system, before the
    render, no core points at a queue that holds a message in [queuesRef] and
    the tick produces no record, yet the tick empties the queue of the client
    in the [queues] cell, which held the injected message. *)
Theorem idle_tick_overwrites_unrendered_queue cores c newId type price time now ids :
  ∃ s1,
    schedule [Callback (Inject c newId type price time)] (configured cores) = Normal s1
    ∧ (∀ coreId c', (coreId < cpuCount s1)%nat →
         target (coreStatesRef s1) coreId = Some c' → queuesRef s1 !!! c' = [])
    ∧ tickBatch now ids s1 = []
    ∧ queues s1 !! c
      = Some [mkMessage newId c (MsgType_text type +:+ " @ " +:+ price) time type]
    ∧ queues (tick now ids s1) !! c = Some []
    ∧ queues (tick now ids s1) ≠ queues s1.
Proof.
  destruct (configured_tick_idle now ids cores) as (Hbatch & Hq & _).
  assert (queues (configured cores) !! c = Some []) as Hempty by by destruct c.
  assert (addMessage c newId type price time (configured cores)
          = Normal (setQueues
                      (<[c := [] ++ [mkMessage newId c
                                       (MsgType_text type +:+ " @ " +:+ price)
                                       time type]]> (queues (configured cores)))
                      (configured cores))) as Hadd
    by (unfold addMessage; by rewrite Hempty).
  eexists. cbn [schedule moment bindC]. rewrite Hadd. cbn [bindC].
  split; [reflexivity|].
  split; [intros coreId c' _ _; by destruct c'|].
  split; [exact Hbatch|].
  split; [apply lookup_insert_eq|].
  assert (queues (tick now ids (configured cores)) !! c = Some []) as Hafter
    by (rewrite Hq; by destruct c).
  split; [exact Hafter|].
  intros Heq.
  assert (queues (tick now ids (configured cores)) !! c
          = Some ([] ++ [mkMessage newId c (MsgType_text type +:+ " @ " +:+ price)
                           time type]))
    as Hbad.
  { etrans; [|apply (lookup_insert_eq (queues (configured cores)) c)].
    f_equal. exact Heq. }
  rewrite Hafter in Hbad. discriminate.
Qed.
